(** * SQLCluster: scatter/gather coordination of SQL workers

    A shallow embedding of [modules/sql/src/cluster.ts]: the partitioning of
    file paths over the workers, the context-token counter, the fan-out of
    table operations, the streaming gather of query results and the worker
    life cycle, with the properties the specification states about them. *)

From Stdlib Require Import String Ascii.
From Stdlib Require Import List ZArith Bool Arith Lia DecimalString FinFun.
From Stdlib Require Import Permutation.
Import ListNotations.

(** ** JavaScript values used by the cluster *)

Module JS.

(** [Math.ceil(a / b)] for an array length [a] and a loop counter [b >= 1].
    Both are integers below [2^32], where the floating-point quotient rounds
    to the exact ceiling. *)
Definition ceil_div (a b : nat) : nat := (a + (b - 1)) / b.

(** [xs.splice(0, deleteCount)]: the removed front of the array and the array
    as it is left behind.  [deleteCount] is clamped to the length. *)
Definition splice0 {A : Type} (deleteCount : nat) (xs : list A)
  : list A * list A :=
  (firstn deleteCount xs, skipn deleteCount xs).

(** [xs.splice(idx, 1)]: the array without the element at [idx]. *)
Fixpoint splice1 {A : Type} (idx : nat) (xs : list A) : list A :=
  match xs, idx with
  | [], _ => []
  | _ :: xs', 0 => xs'
  | x :: xs', S idx' => x :: splice1 idx' xs'
  end.

(** [xs.map((x, i) => ...)] sees every element with its index. *)
Definition indexed {A : Type} (xs : list A) : list (A * nat) :=
  combine xs (seq 0 (length xs)).

(** [s.includes(sub)] on strings. *)
Fixpoint includes (sub s : string) : bool :=
  String.prefix sub s ||
  match s with
  | EmptyString => false
  | String _ s' => includes sub s'
  end.

(** The decimal rendering of an integer inside a template literal. *)
Definition string_of_Z (z : Z) : string := NilZero.string_of_int (Z.to_int z).

(** *** Objects as ordered property lists

    An object literal keeps its own string keys in the order
    [Object.keys] reports them: array indices (canonical decimal strings
    below [2^32 - 1]) first, in ascending numeric order, then every other
    key in the order it was first added. *)
Definition obj (V : Type) : Type := list (string * V).

Definition digit_of (c : ascii) : option N :=
  let n := N_of_ascii c in
  if (48 <=? n)%N && (n <=? 57)%N then Some (n - 48)%N else None.

Fixpoint digits_value (acc : N) (s : string) : option N :=
  match s with
  | EmptyString => Some acc
  | String c s' =>
      match digit_of c with
      | Some d => digits_value (10 * acc + d)%N s'
      | None => None
      end
  end.

(** The array index a property key denotes, if it is one. *)
Definition array_index (key : string) : option N :=
  match key with
  | EmptyString => None
  | String c rest =>
      if Ascii.eqb c "0"%char && negb (String.eqb rest EmptyString) then None
      else
        match digits_value 0%N key with
        | Some n => if (n <? 2 ^ 32 - 1)%N then Some n else None
        | None => None
        end
  end.

Definition keys {V : Type} (o : obj V) : list string := map fst o.

Definition has {V : Type} (key : string) (o : obj V) : bool :=
  existsb (fun kv => String.eqb (fst kv) key) o.

Definition replace {V : Type} (key : string) (v : V) (o : obj V) : obj V :=
  map (fun kv => if String.eqb (fst kv) key then (key, v) else kv) o.

Fixpoint insert_index {V : Type} (n : N) (key : string) (v : V) (o : obj V)
  : obj V :=
  match o with
  | [] => [(key, v)]
  | (k, x) :: o' =>
      match array_index k with
      | Some m =>
          if (m <? n)%N then (k, x) :: insert_index n key v o'
          else (key, v) :: o
      | None => (key, v) :: o
      end
  end.

(** [o[key] = v]: an existing key keeps its place, a new one is put where
    [Object.keys] will list it. *)
Definition set {V : Type} (key : string) (v : V) (o : obj V) : obj V :=
  if has key o then replace key v o
  else
    match array_index key with
    | Some n => insert_index n key v o
    | None => o ++ [(key, v)]
    end.

(** A key [k1] added to an object before [k2] is also listed before it:
    unless [k2] is an array index and [k1] is none, or a larger one. *)
Definition lists_before (k1 k2 : string) : bool :=
  match array_index k2 with
  | Some n2 =>
      match array_index k1 with
      | Some n1 => (n1 <? n2)%N
      | None => false
      end
  | None => true
  end.

(** Keys that an object to which they are added one by one lists in that
    very order: pairwise distinct, array indices first and ascending. *)
Definition key_order (ks : list string) : Prop :=
  NoDup ks /\ ForallOrdPairs (fun k1 k2 => lists_before k1 k2 = true) ks.

(** *** Promises *)

Definition Error : Type := string.

Inductive Settled (A : Type) : Type :=
| Resolved (value : A)
| Rejected (reason : Error).
Arguments Resolved {A} value.
Arguments Rejected {A} reason.

(** A promise is pending ([None]) or settled for good. *)
Definition Promise (A : Type) : Type := option (Settled A).

End JS.

(** ** The partitioning loop of [_createFileTable] *)

(** [for (let i = n; i > 0; i--)
       chunkedPaths.push(filePath.splice(0, Math.ceil(filePath.length / i)))]
    as a state transformer on the two arrays the loop mutates. *)
Fixpoint chunk_loop (i : nat) (filePath : list string)
    (chunkedPaths : list (list string)) : list string * list (list string) :=
  match i with
  | 0 => (filePath, chunkedPaths)
  | S i' =>
      let '(removed, rest) :=
        JS.splice0 (JS.ceil_div (length filePath) i) filePath in
      chunk_loop i' rest (chunkedPaths ++ [removed])
  end.

(** The chunks produced for [numWorkers] workers, from an empty
    [chunkedPaths]. *)
Definition chunk_paths (numWorkers : nat) (filePath : list string)
  : list (list string) :=
  snd (chunk_loop numWorkers filePath []).

(** What is left of the caller's array after the loop. *)
Definition chunk_rest (numWorkers : nat) (filePath : list string)
  : list string :=
  fst (chunk_loop numWorkers filePath []).

(** The items still unassigned after [k] iterations of a loop that started
    with [n] workers. *)
Fixpoint remaining_after (k n : nat) (filePath : list string) : list string :=
  match k with
  | 0 => filePath
  | S k' =>
      remaining_after k' (n - 1)
        (skipn (JS.ceil_div (length filePath) n) filePath)
  end.

(** ** Workers and the cluster object *)

(** Modelled from the spec: the classes [LocalSQLWorker] and
    [RemoteSQLWorker] that implement the [Worker] interface are not part of
    the sources.  A worker handle is one of two variants, in-process or
    remote, with an integer [id]: the one its constructor is given.  A
    remote worker is also pinned to a device ([CUDA_VISIBLE_DEVICES]). *)
Inductive Worker : Type :=
| LocalSQLWorker (id : Z)
| RemoteSQLWorker (id : Z) (CUDA_VISIBLE_DEVICES : nat).

Definition worker_id (w : Worker) : Z :=
  match w with
  | LocalSQLWorker id => id
  | RemoteSQLWorker id _ => id
  end.

Definition is_local (w : Worker) : bool :=
  match w with
  | LocalSQLWorker _ => true
  | RemoteSQLWorker _ _ => false
  end.

(** The fields of a [SQLCluster] instance. *)
Record SQLCluster : Type := {
  _workers : list Worker;
  _worker : Worker
}.

(** [new SQLCluster(id, numWorkers)].  The exit hooks it installs only call
    [kill] later and are left out. *)
Definition new_SQLCluster (id : Z) (numWorkers : nat) : SQLCluster :=
  let local := LocalSQLWorker id in
  {| _worker := local;
     _workers :=
       rev (map (fun i =>
                   if Nat.eqb i 0 then local
                   else RemoteSQLWorker (id + Z.of_nat i) i)
                (seq 0 numWorkers)) |}.

(** The options [SQLCluster.init] reads to build the cluster; an absent
    field is [None].  [numWorkers] is a count. *)
Record ClusterProps : Type := {
  numWorkers : option nat;
  id : option Z;
  ip : option string;
  port : option Z
}.

Record WorkerUcpInfo : Type := {
  ucp_id : Z;
  ucp_ip : string;
  ucp_port : Z
}.

(** ** DataFrames, the channel and the coordinator's state *)

Section Cluster.

(** Column types of the two libraries, and the conversion between them
    ([arrowToCUDFType] of [@rapidsai/cudf]).  [types[i]] is [None] where the
    array has no such element. *)
Variables ArrowType DataType : Type.
Variable arrowToCUDFType : option ArrowType -> DataType.

(** [Series.new({type, data})], by its type and number of elements. *)
Record Series : Type := {
  series_type : DataType;
  series_length : nat
}.

(** Modelled from the spec: the [ColumnAccessor] class behind
    [DataFrame.names] and [DataFrame.types] is not part of the sources.  A
    DataFrame is its columns, named and ordered as the keys of the object it
    was constructed from; its schema is those names with their types. *)
Record DataFrame : Type := {
  df_columns : JS.obj Series
}.

(** [_seriesToColumns]: copies every entry of [data] into a new object. *)
Definition _seriesToColumns (data : JS.obj Series) : JS.obj Series :=
  fold_left (fun columns entry => JS.set (fst entry) (snd entry) columns)
            data [].

(** [new DataFrame(data)]. *)
Definition new_DataFrame (data : JS.obj Series) : DataFrame :=
  {| df_columns := _seriesToColumns data |}.

Definition df_names (df : DataFrame) : list string :=
  JS.keys (df_columns df).

Definition df_types (df : DataFrame) : JS.obj DataType :=
  map (fun entry => (fst entry, series_type (snd entry))) (df_columns df).

(** [DataFrame.numRows]: the length of the first column, or [0]. *)
Definition numRows (df : DataFrame) : nat :=
  match df_columns df with
  | [] => 0
  | (_, col) :: _ => series_length col
  end.

(** The result of [parseSchema] (native code, see [addon.ts]). *)
Record ParsedSchema : Type := {
  names : list string;
  types : list ArrowType
}.

Inductive FileType : Type := csv | orc | parquet.

Variable parseSchema : list string -> FileType -> ParsedSchema.

(** [context.explain(sql, detail)] and the references [context.broadcast]
    returns: both native. *)
Variable explain : string -> bool -> string.
Variable broadcast : Z -> DataFrame -> list string.

(** [Device.numDevices]. *)
Variable numDevices : nat.

(** Everything the coordinator asks of the channel and of its workers, in
    the order it asks. *)
Inductive Call : Type :=
| ContextExplain (sql : string) (detail : bool)
| ContextBroadcast (ctxToken : Z) (df : DataFrame)
| ContextSend (id : Z) (ctxToken : Z) (messageId : string) (df : DataFrame)
| WorkerKill (w : Worker)
| WorkerDropTable (w : Worker) (name : string)
| WorkerSql (w : Worker) (query : string) (token : Z)
| WorkerCreateDataFrameTable (w : Worker) (name : string)
    (table_id : option string)
| WorkerCreateCSVTable (w : Worker) (name : string) (paths : list string)
| WorkerCreateParquetTable (w : Worker) (name : string) (paths : list string)
| WorkerCreateORCTable (w : Worker) (name : string) (paths : list string)
| WorkerCreateContext (w : Worker) (ip : string) (port : Z)
    (workersUcpInfo : list WorkerUcpInfo).

(** The module-level [ctxToken] and the calls made so far. *)
Record World : Type := {
  ctxToken : Z;
  calls : list Call
}.

(** *** A state monad over [World] *)

Definition M (A : Type) : Type := World -> A * World.

Definition ret {A : Type} (a : A) : M A := fun w => (a, w).

Definition bind {A B : Type} (m : M A) (k : A -> M B) : M B :=
  fun w => let (a, w') := m w in k a w'.

Notation "x <- m ;; k" := (bind m (fun x => k))
  (at level 61, m at next level, right associativity).
Notation "m ;; k" := (bind m (fun _ => k))
  (at level 61, right associativity).

Definition call (c : Call) : M unit :=
  fun w => (tt, {| ctxToken := ctxToken w; calls := calls w ++ [c] |}).

Definition get_ctxToken : M Z := fun w => (ctxToken w, w).

Definition set_ctxToken (t : Z) : M unit :=
  fun w => (tt, {| ctxToken := t; calls := calls w |}).

Fixpoint forEach {A : Type} (f : A -> M unit) (xs : list A) : M unit :=
  match xs with
  | [] => ret tt
  | x :: xs' => f x ;; forEach f xs'
  end.

(** ** [Promise.all] over the workers' promises *)

(** The promises handed to [Promise.all], each with the id of the worker it
    belongs to, and the promise [Promise.all] returned. *)
Record AllState : Type := {
  all_promises : list (Z * JS.Promise unit);
  all_result : JS.Promise unit
}.

Definition is_pending {A : Type} (wid : Z) (ps : list (Z * JS.Promise A))
  : bool :=
  existsb (fun p => Z.eqb (fst p) wid &&
                    match snd p with None => true | Some _ => false end) ps.

(** The promise of worker [wid] settles; a promise settles once. *)
Definition settle {A : Type} (wid : Z) (o : JS.Settled A)
    (ps : list (Z * JS.Promise A)) : list (Z * JS.Promise A) :=
  map (fun p =>
         match snd p with
         | None => if Z.eqb (fst p) wid then (fst p, Some o) else p
         | Some _ => p
         end) ps.

Definition is_resolved {A : Type} (p : Z * JS.Promise A) : bool :=
  match snd p with
  | Some (JS.Resolved _) => true
  | _ => false
  end.

(** [Promise.all(workers.map(...))] at the moment of the call: every
    worker's promise is pending; with no promise at all the result is
    fulfilled at once. *)
Definition promise_all (workers : list Worker) : AllState :=
  {| all_promises := map (fun w => (worker_id w, None)) workers;
     all_result :=
       match workers with
       | [] => Some (JS.Resolved tt)
       | _ => None
       end |}.

(** One worker's promise settles: [Promise.all] rejects with the first
    rejection it sees and fulfils once every promise is fulfilled. *)
Definition all_step (st : AllState) (ev : Z * JS.Settled unit) : AllState :=
  let (wid, o) := ev in
  let ps' := settle wid o (all_promises st) in
  {| all_promises := ps';
     all_result :=
       match all_result st with
       | Some r => Some r
       | None =>
           if is_pending wid (all_promises st) then
             match o with
             | JS.Rejected e => Some (JS.Rejected e)
             | JS.Resolved _ =>
                 if forallb is_resolved ps' then Some (JS.Resolved tt)
                 else None
             end
           else None
       end |}.

Definition all_run (st : AllState) (evs : list (Z * JS.Settled unit))
  : AllState :=
  fold_left all_step evs st.

(** ** The operations of [SQLCluster] *)

(** [_createContexts]: every worker is given the endpoints of all workers.
    The other properties of the context are passed on as they are and left
    out. *)
Definition _createContexts (c : SQLCluster) (ip : string) (port : Z)
  : M AllState :=
  let workersUcpInfo :=
    map (fun w => {| ucp_id := worker_id w;
                     ucp_ip := ip;
                     ucp_port := port + worker_id w |})
        (rev (_workers c)) in
  forEach (fun worker => call (WorkerCreateContext worker ip port workersUcpInfo))
          (_workers c) ;;
  ret (promise_all (_workers c)).

(** [SQLCluster.init(options)]: the cluster, returned once the promise of
    [_createContexts] is fulfilled. *)
Definition init (options : ClusterProps) : M (SQLCluster * AllState) :=
  let numWorkers := match numWorkers options with
                    | Some n => n
                    | None => numDevices
                    end in
  let ip := match ip options with Some s => s | None => "0.0.0.0"%string end in
  let port := match port options with Some p => p | None => 4000%Z end in
  let cluster :=
    new_SQLCluster (match id options with Some i => i | None => 0%Z end)
                   (Nat.min numWorkers numDevices) in
  contexts <- _createContexts cluster ip port ;;
  ret (cluster, contexts).

(** [createDataFrameTable]: reserves one token per worker and broadcasts
    under the first of them. *)
Definition createDataFrameTable (c : SQLCluster) (tableName : string)
    (input : DataFrame) : M AllState :=
  let n := Z.of_nat (length (_workers c)) in
  t <- get_ctxToken ;;
  set_ctxToken (t + n) ;;
  t' <- get_ctxToken ;;
  call (ContextBroadcast (t' - n) input) ;;
  let ids := rev (broadcast (t' - n) input) in
  forEach (fun entry =>
             call (WorkerCreateDataFrameTable (fst entry) tableName
                     (nth_error ids (snd entry))))
          (JS.indexed (_workers c)) ;;
  ret (promise_all (_workers c)).

(** The zero-row DataFrame [_createFileTable] builds from a parsed schema:
    [names.reduce((xs, name, i) => ({...xs, [name]: Series.new(...)}), {})]. *)
Definition empty_table (schema : ParsedSchema) : DataFrame :=
  new_DataFrame
    (fold_left
       (fun xs entry =>
          JS.set (fst entry)
                 {| series_type :=
                      arrowToCUDFType (nth_error (types schema) (snd entry));
                    series_length := 0 |}
                 xs)
       (JS.indexed (names schema)) []).

Definition broadcast_table_message (token : Z) : string :=
  ("broadcast_table_message_" ++ JS.string_of_Z token)%string.

(** What [_createFileTable] does for one worker and the chunk at the same
    index. *)
Definition dispatch_chunk (tableName : string) (empty : DataFrame)
    (cb : Worker -> list string -> M unit) (entry : Worker * list string)
  : M unit :=
  let (worker, chunk) := entry in
  if 0 <? length chunk then cb worker chunk
  else
    t <- get_ctxToken ;;
    set_ctxToken (t + 1) ;;
    token <- get_ctxToken ;;
    let message := broadcast_table_message token in
    call (ContextSend (worker_id worker) token message empty) ;;
    call (WorkerCreateDataFrameTable worker tableName (Some message)).

(** [_createFileTable].  The result carries the caller's [filePath] array as
    the loop leaves it.  [chunkedPaths] and the reversed copy of [_workers]
    both have [_workers.length] elements, so [chunkedPaths[i]] is the chunk
    paired with the [i]-th worker. *)
Definition _createFileTable (c : SQLCluster) (tableName : string)
    (filePath : list string) (fileType : FileType)
    (cb : Worker -> list string -> M unit) : M (list string * AllState) :=
  let empty := empty_table (parseSchema filePath fileType) in
  let (filePath', chunkedPaths) :=
    chunk_loop (length (_workers c)) filePath [] in
  forEach (dispatch_chunk tableName empty cb)
          (combine (rev (_workers c)) chunkedPaths) ;;
  ret (filePath', promise_all (rev (_workers c))).

Definition createCSVTable (c : SQLCluster) (tableName : string)
    (filePaths : list string) : M (list string * AllState) :=
  _createFileTable c tableName filePaths csv
    (fun worker chunkedPaths =>
       call (WorkerCreateCSVTable worker tableName chunkedPaths)).

Definition createParquetTable (c : SQLCluster) (tableName : string)
    (filePaths : list string) : M (list string * AllState) :=
  _createFileTable c tableName filePaths parquet
    (fun worker chunkedPaths =>
       call (WorkerCreateParquetTable worker tableName chunkedPaths)).

Definition createORCTable (c : SQLCluster) (tableName : string)
    (filePaths : list string) : M (list string * AllState) :=
  _createFileTable c tableName filePaths orc
    (fun worker chunkedPaths =>
       call (WorkerCreateORCTable worker tableName chunkedPaths)).

(** The three of them by the file type each passes on, and the call each
    makes on a worker that was given paths. *)
Definition createFileTable (fileType : FileType)
  : SQLCluster -> string -> list string -> M (list string * AllState) :=
  match fileType with
  | csv => createCSVTable
  | parquet => createParquetTable
  | orc => createORCTable
  end.

Definition WorkerCreateFileTable (fileType : FileType) (tableName : string)
    (worker : Worker) (chunkedPaths : list string) : Call :=
  match fileType with
  | csv => WorkerCreateCSVTable worker tableName chunkedPaths
  | parquet => WorkerCreateParquetTable worker tableName chunkedPaths
  | orc => WorkerCreateORCTable worker tableName chunkedPaths
  end.

Definition dropTable (c : SQLCluster) (tableName : string) : M AllState :=
  forEach (fun worker => call (WorkerDropTable worker tableName))
          (_workers c) ;;
  ret (promise_all (_workers c)).

(** [kill]: the cluster object afterwards is the result.  A worker's
    [kill()] returns nothing and does not throw ([kill(): void], best
    effort). *)
Definition kill (c : SQLCluster) : M SQLCluster :=
  forEach (fun w => call (WorkerKill w)) (_workers c) ;;
  ret {| _workers := []; _worker := _worker c |}.

(** The operations that fan out to the workers and await them all. *)
Inductive FanOut : Type :=
| CreateDataFrameTable (tableName : string) (input : DataFrame)
| CreateFileTable (fileType : FileType) (tableName : string)
    (filePaths : list string)
| DropTable (tableName : string).

(** The synchronous part of such an operation, up to its
    [await Promise.all(...)]. *)
Definition fan_out (c : SQLCluster) (op : FanOut) : M AllState :=
  match op with
  | CreateDataFrameTable tableName input =>
      createDataFrameTable c tableName input
  | CreateFileTable fileType tableName filePaths =>
      r <- createFileTable fileType c tableName filePaths ;;
      ret (snd r)
  | DropTable tableName => dropTable c tableName
  end.

(** The operation awaited: the dispatch, then the workers' answers in the
    order they arrive; nothing follows the [await], so the outcome is the
    one of [Promise.all]. *)
Definition awaited (c : SQLCluster) (op : FanOut)
    (evs : list (Z * JS.Settled unit)) : M (JS.Promise unit) :=
  st <- fan_out c op ;;
  ret (all_result (all_run st evs)).

(** ** The streaming query [sql] *)

(** What the consumer of the generator observes. *)
Inductive Output : Type :=
| Yield (df : DataFrame)
| Return
| Throw (e : JS.Error).

(** What happens to a running generator: the consumer asks for the next
    value, or the promise of worker [wid] settles. *)
Inductive Event : Type :=
| Next
| Settle (wid : Z) (o : JS.Settled (list DataFrame)).

(** Where the generator is suspended:
    - [GRacing]: at [await Promise.race(...)], every remaining promise
      pending;
    - [GYielding]: at a [yield] of [yield* dfs], with the batches of [dfs]
      still to be yielded and the remaining promises, which settle
      meanwhile;
    - [GDone], [GFailed]: it returned, or threw. *)
Inductive GenState : Type :=
| GRacing (pending : list Z)
| GYielding (buffer : list DataFrame)
    (promises : list (Z * JS.Promise (list DataFrame)))
| GDone
| GFailed (e : JS.Error).

(** The winner of [Promise.race] over promises of which some are settled
    already: their reactions run in array order, so the first settled one
    in the array wins. *)
Fixpoint first_settled {A : Type} (ps : list (Z * JS.Promise A))
  : option (nat * JS.Settled A) :=
  match ps with
  | [] => None
  | (_, Some o) :: _ => Some (0, o)
  | (_, None) :: ps' =>
      match first_settled ps' with
      | Some (idx, o) => Some (S idx, o)
      | None => None
      end
  end.

(** The [while (promises.length > 0)] loop from its head to the next
    suspension.  [fuel] bounds the iterations that yield nothing; the length
    of [promises] is enough. *)
Fixpoint drain (fuel : nat) (promises : list (Z * JS.Promise (list DataFrame)))
  : GenState * list Output :=
  match promises with
  | [] => (GDone, [Return])
  | _ :: _ =>
      match first_settled promises with
      | None => (GRacing (map fst promises), [])
      | Some (idx, JS.Rejected e) => (GFailed e, [Throw e])
      | Some (idx, JS.Resolved dfs) =>
          let promises' := JS.splice1 idx promises in
          match dfs with
          | df :: rest => (GYielding rest promises', [Yield df])
          | [] =>
              match fuel with
              | 0 => (GRacing (map fst promises'), [])
              | S fuel' => drain fuel' promises'
              end
          end
      end
  end.

Definition loop (promises : list (Z * JS.Promise (list DataFrame)))
  : GenState * list Output :=
  drain (length promises) promises.

(** [sql(query)] up to its first suspension, on the consumer's first
    request. *)
Definition sql (c : SQLCluster) (query : string) : M (GenState * list Output) :=
  call (ContextExplain query false) ;;
  let algebra := explain query false in
  if JS.includes "LogicalValues(tuples=[[]])" algebra then
    ret (GDone, [Return])
  else
    token <- get_ctxToken ;;
    set_ctxToken (token + 1) ;;
    forEach (fun worker => call (WorkerSql worker query token)) (_workers c) ;;
    ret (loop (map (fun worker => (worker_id worker, None)) (_workers c))).

(** One event on a suspended generator.  A consumer asks for the next value
    only after it was given the previous one. *)
Definition gen_step (st : GenState) (ev : Event) : GenState * list Output :=
  match st, ev with
  | GRacing pending, Settle wid o =>
      if existsb (Z.eqb wid) pending then
        loop (settle wid o (map (fun w => (w, None)) pending))
      else (st, [])
  | GRacing _, Next => (st, [])
  | GYielding buffer promises, Settle wid o =>
      (GYielding buffer (settle wid o promises), [])
  | GYielding (df :: rest) promises, Next =>
      (GYielding rest promises, [Yield df])
  | GYielding [] promises, Next => loop promises
  | GDone, _ => (GDone, [])
  | GFailed e, _ => (GFailed e, [])
  end.

Fixpoint gen_run (st : GenState) (evs : list Event) : GenState * list Output :=
  match evs with
  | [] => (st, [])
  | ev :: evs' =>
      let (st', out) := gen_step st ev in
      let (st'', out') := gen_run st' evs' in
      (st'', out ++ out')
  end.

(** A whole query: the first request, then the events that follow. *)
Definition sql_run (c : SQLCluster) (query : string) (evs : list Event)
  : M (GenState * list Output) :=
  r <- sql c query ;;
  let (st, out) := gen_run (fst r) evs in
  ret (st, snd r ++ out).

End Cluster.

Arguments series_type {DataType} _.
Arguments series_length {DataType} _.
Arguments df_columns {DataType} _.
Arguments new_DataFrame {DataType} data.
Arguments df_names {DataType} df.
Arguments df_types {DataType} df.
Arguments numRows {DataType} df.
Arguments names {ArrowType} _.
Arguments types {ArrowType} _.
Arguments empty_table {ArrowType DataType} arrowToCUDFType schema.
Arguments ContextExplain {DataType} sql detail.
Arguments ContextBroadcast {DataType} ctxToken df.
Arguments ContextSend {DataType} id ctxToken messageId df.
Arguments WorkerKill {DataType} w.
Arguments WorkerDropTable {DataType} w name.
Arguments WorkerSql {DataType} w query token.
Arguments WorkerCreateDataFrameTable {DataType} w name table_id.
Arguments WorkerCreateCSVTable {DataType} w name paths.
Arguments WorkerCreateParquetTable {DataType} w name paths.
Arguments WorkerCreateORCTable {DataType} w name paths.
Arguments WorkerCreateContext {DataType} w ip port workersUcpInfo.
Arguments ctxToken {DataType} _.
Arguments calls {DataType} _.
Arguments ret {DataType A} a _.
Arguments bind {DataType A B} m k _.
Arguments call {DataType} c _.
Arguments forEach {DataType A} f xs _.
Arguments _createContexts {DataType} c ip port _.
Arguments init {DataType} numDevices options _.
Arguments createDataFrameTable {DataType} broadcast c tableName input _.
Arguments dispatch_chunk {DataType} tableName empty cb entry _.
Arguments _createFileTable {ArrowType DataType} arrowToCUDFType parseSchema
  c tableName filePath fileType cb _.
Arguments createCSVTable {ArrowType DataType} arrowToCUDFType parseSchema
  c tableName filePaths _.
Arguments createParquetTable {ArrowType DataType} arrowToCUDFType parseSchema
  c tableName filePaths _.
Arguments createORCTable {ArrowType DataType} arrowToCUDFType parseSchema
  c tableName filePaths _.
Arguments createFileTable {ArrowType DataType} arrowToCUDFType parseSchema
  fileType c tableName filePaths _ : rename.
Arguments WorkerCreateFileTable {DataType} fileType tableName worker
  chunkedPaths.
Arguments dropTable {DataType} c tableName _.
Arguments kill {DataType} c _.
Arguments CreateDataFrameTable {DataType} tableName input.
Arguments CreateFileTable {DataType} fileType tableName filePaths.
Arguments DropTable {DataType} tableName.
Arguments fan_out {ArrowType DataType} arrowToCUDFType parseSchema broadcast
  c op _.
Arguments awaited {ArrowType DataType} arrowToCUDFType parseSchema broadcast
  c op evs _.
Arguments Yield {DataType} df.
Arguments Return {DataType}.
Arguments Throw {DataType} e.
Arguments Next {DataType}.
Arguments Settle {DataType} wid o.
Arguments GRacing {DataType} pending.
Arguments GYielding {DataType} buffer promises.
Arguments GDone {DataType}.
Arguments GFailed {DataType} e.
Arguments drain {DataType} fuel promises.
Arguments loop {DataType} promises.
Arguments sql {DataType} explain c query _.
Arguments gen_step {DataType} st ev.
Arguments gen_run {DataType} st evs.
Arguments sql_run {DataType} explain c query evs _.

(** ** Concrete collaborators for the worked examples *)

Module Example.

Inductive arrow : Type := ArrowInt32 | ArrowUtf8 | ArrowFloat64.

Inductive dtype : Type := Int32 | Utf8String | Float64 | NoType.

Definition arrowToCUDFType (t : option arrow) : dtype :=
  match t with
  | Some ArrowInt32 => Int32
  | Some ArrowUtf8 => Utf8String
  | Some ArrowFloat64 => Float64
  | None => NoType
  end.

(** A planner that finds the query [SELECT * FROM t WHERE 1 = 0] empty. *)
Definition explain (query : string) (detail : bool) : string :=
  if String.eqb query "SELECT * FROM t WHERE 1 = 0"
  then "LogicalValues(tuples=[[]])"%string
  else "BindableTableScan(table=[[main, t]], aliases=[[a]])"%string.

Definition broadcast (token : Z) (df : DataFrame dtype) : list string :=
  [].

(** A one-column batch of [rows] rows. *)
Definition batch (name : string) (rows : nat) : DataFrame dtype :=
  new_DataFrame [(name, {| series_type := Int32; series_length := rows |})].

(** Schemas a parser may report: plain names, a repeated name, and a header
    of years. *)
Definition schema_ab : ParsedSchema arrow :=
  {| names := ["a"; "b"]%string; types := [ArrowInt32; ArrowUtf8] |}.

Definition schema_repeated : ParsedSchema arrow :=
  {| names := ["a"; "a"]%string; types := [ArrowInt32; ArrowUtf8] |}.

Definition schema_years : ParsedSchema arrow :=
  {| names := ["city"; "2020"; "2019"]%string;
     types := [ArrowUtf8; ArrowFloat64; ArrowInt32] |}.

Definition parseSchema (schema : ParsedSchema arrow) (paths : list string)
    (fileType : FileType) : ParsedSchema arrow :=
  schema.

(** One batch from each of the workers 0, 1 and 2. *)
Definition batch0 : DataFrame dtype := batch "from_worker_0" 1.

Definition batch1 : DataFrame dtype := batch "from_worker_1" 1.

Definition batch2 : DataFrame dtype := batch "from_worker_2" 1.

(** A fresh process: no token handed out, nothing called. *)
Definition world0 : World dtype := {| ctxToken := 0; calls := [] |}.

Definition paths7 : list string :=
  ["f1.csv"; "f2.csv"; "f3.csv"; "f4.csv"; "f5.csv"; "f6.csv"; "f7.csv"]%string.

Definition cluster2 : SQLCluster := new_SQLCluster 0 2.

Definition cluster3 : SQLCluster := new_SQLCluster 0 3.

(** Two frames to join on [id]; [scores] is [games] without the key. *)
Definition column (type : dtype) (rows : nat) : Series dtype :=
  {| series_type := type; series_length := rows |}.

Definition people : DataFrame dtype :=
  new_DataFrame [("id", column Int32 3); ("name", column Utf8String 3);
                 ("score", column Float64 3)]%string.

Definition games : DataFrame dtype :=
  new_DataFrame [("id", column Int32 2); ("score", column Int32 2);
                 ("city", column Utf8String 2)]%string.

Definition scores : DataFrame dtype :=
  new_DataFrame [("score", column Int32 2);
                 ("city", column Utf8String 2)]%string.

End Example.

(** ** Invariants *)

(** What [Promise.all] has decided, against the promises it was given:
    undecided, no promise was rejected and one is pending; fulfilled, all
    are fulfilled; rejected, one of them was rejected for that reason. *)
Definition all_inv (st : AllState) : Prop :=
  match all_result st with
  | None =>
      Forall (fun p => forall e, snd p <> Some (JS.Rejected e))
             (all_promises st) /\
      Exists (fun p => snd p = None) (all_promises st)
  | Some (JS.Resolved _) =>
      Forall (fun p => is_resolved p = true) (all_promises st)
  | Some (JS.Rejected e) =>
      Exists (fun p => snd p = Some (JS.Rejected e)) (all_promises st)
  end.

(** A batch handed to the consumer, as opposed to the end of the stream. *)
Definition is_yield {DataType : Type} (o : Output DataType) : bool :=
  match o with
  | Yield _ => true
  | _ => false
  end.

(** The promise was rejected for the reason [e]. *)
Definition rejected_with {A : Type} (e : JS.Error) (p : Z * JS.Promise A)
  : Prop :=
  snd p = Some (JS.Rejected e).

(** ** Reading the calls *)

(** The paths a call asks a worker to load. *)
Definition call_paths {DataType : Type} (c : Call DataType) : list string :=
  match c with
  | WorkerCreateCSVTable _ _ paths => paths
  | WorkerCreateParquetTable _ _ paths => paths
  | WorkerCreateORCTable _ _ paths => paths
  | _ => []
  end.

(** The context token a call carries, if it carries one. *)
Definition call_token {DataType : Type} (c : Call DataType) : option Z :=
  match c with
  | ContextBroadcast token _ => Some token
  | ContextSend _ token _ _ => Some token
  | WorkerSql _ _ token => Some token
  | _ => None
  end.

(** The worker a call is made on, if it is made on one. *)
Definition call_worker {DataType : Type} (c : Call DataType) : option Worker :=
  match c with
  | ContextExplain _ _ | ContextBroadcast _ _ | ContextSend _ _ _ _ => None
  | WorkerKill w => Some w
  | WorkerDropTable w _ => Some w
  | WorkerSql w _ _ => Some w
  | WorkerCreateDataFrameTable w _ _ => Some w
  | WorkerCreateCSVTable w _ _ => Some w
  | WorkerCreateParquetTable w _ _ => Some w
  | WorkerCreateORCTable w _ _ => Some w
  | WorkerCreateContext w _ _ _ => Some w
  end.

(** ** Reading a running query *)

(** The batches a fulfilled promise holds. *)
Definition resolved_batches {A : Type} (p : Z * JS.Promise (list A))
  : list A :=
  match snd p with
  | Some (JS.Resolved dfs) => dfs
  | _ => []
  end.

(** The batches the generator holds and has not yielded yet: the rest of the
    array it is yielding from and the batches of the promises that were
    fulfilled meanwhile. *)
Definition held {DataType : Type} (st : GenState DataType)
  : list (DataFrame DataType) :=
  match st with
  | GYielding buffer promises =>
      buffer ++ flat_map resolved_batches promises
  | _ => []
  end.

(** The batches among the outputs. *)
Definition yielded {DataType : Type} (outs : list (Output DataType))
  : list (DataFrame DataType) :=
  flat_map (fun o => match o with Yield df => [df] | _ => [] end) outs.

(** The workers whose promises the generator still holds, and whether the
    promise of worker [wid] is among them and pending. *)
Definition gen_ids {DataType : Type} (st : GenState DataType) : list Z :=
  match st with
  | GRacing pending => pending
  | GYielding _ promises => map fst promises
  | _ => []
  end.

Definition awaits {DataType : Type} (st : GenState DataType) (wid : Z)
  : bool :=
  match st with
  | GRacing pending => existsb (Z.eqb wid) pending
  | GYielding _ promises => is_pending wid promises
  | _ => false
  end.

(** The batches that arrive during a run: those of every answer that
    fulfils a promise still pending. *)
Fixpoint arrivals {DataType : Type} (st : GenState DataType)
    (evs : list (Event DataType)) : list (DataFrame DataType) :=
  match evs with
  | [] => []
  | ev :: evs' =>
      match ev with
      | Settle wid (JS.Resolved dfs) => if awaits st wid then dfs else []
      | _ => []
      end ++ arrivals (fst (gen_step st ev)) evs'
  end.

(** The answers that arrive during a run, each as the array of batches it
    carries: those that fulfil a promise still pending. *)
Fixpoint answers {DataType : Type} (st : GenState DataType)
    (evs : list (Event DataType)) : list (list (DataFrame DataType)) :=
  match evs with
  | [] => []
  | ev :: evs' =>
      match ev with
      | Settle wid (JS.Resolved dfs) => if awaits st wid then [dfs] else []
      | _ => []
      end ++ answers (fst (gen_step st ev)) evs'
  end.

(** ** Programs that use a cluster *)

Section Sessions.

Variables ArrowType DataType : Type.
Variable arrowToCUDFType : option ArrowType -> DataType.
Variable parseSchema : list string -> FileType -> ParsedSchema ArrowType.
Variable explain : string -> bool -> string.
Variable broadcast : Z -> DataFrame DataType -> list string.

(** What a program does with a cluster, one step after the other: it starts
    a query, starts one of the fan-out operations, or kills the workers. *)
Inductive Op : Type :=
| OpQuery (query : string)
| OpFanOut (op : FanOut DataType)
| OpKill.

(** The synchronous part of one step; the cluster object afterwards is the
    result. *)
Definition exec (c : SQLCluster) (op : Op) : World DataType -> SQLCluster * World DataType :=
  match op with
  | OpQuery query =>
      fun w => (c, snd (sql explain c query w))
  | OpFanOut op =>
      fun w =>
        (c, snd (fan_out arrowToCUDFType parseSchema broadcast c op w))
  | OpKill => kill c
  end.

Fixpoint session (c : SQLCluster) (ops : list Op) (w : World DataType)
  : SQLCluster * World DataType :=
  match ops with
  | [] => (c, w)
  | op :: ops' => let (c', w') := exec c op w in session c' ops' w'
  end.

End Sessions.

Arguments OpQuery {DataType} query.
Arguments OpFanOut {DataType} op.
Arguments OpKill {DataType}.
Arguments exec {ArrowType DataType} arrowToCUDFType parseSchema explain
  broadcast c op _.
Arguments session {ArrowType DataType} arrowToCUDFType parseSchema explain
  broadcast c ops w.

(** ** The columns of a join ([dataframe/join.ts]) *)

Section Join.

Variable DataType : Type.

(** [newName] in [getColumns]: a join key keeps its name, as does a name the
    other side does not have; any other name is given the suffix. *)
Definition newName (on rhsNames : list string) (suffix name : string)
  : string :=
  if existsb (String.eqb name) on then name
  else if existsb (String.eqb name) rhsNames then (name ++ suffix)%string
  else name.

(** [getColumns(lhs, rhsNames, suffix)] inside [mergeResults]:
    [lhs.names.reduce((cols, name) => { cols[newName] = lhs.get(name)._col;
    return cols; }, {})].  For a name of [lhs.names], [lhs.get(name)._col]
    is the column listed under that name. *)
Definition getColumns (on : list string) (lhs : DataFrame DataType)
    (rhsNames : list string) (suffix : string) : JS.obj (Series DataType) :=
  fold_left
    (fun cols entry =>
       JS.set (newName on rhsNames suffix (fst entry)) (snd entry) cols)
    (df_columns lhs) [].

(** The object literal [{...a, ...b}]. *)
Definition spread {V : Type} (a b : JS.obj V) : JS.obj V :=
  fold_left (fun o e => JS.set (fst e) (snd e) o) b
            (fold_left (fun o e => JS.set (fst e) (snd e) o) a []).

(** [mergeResults(lhs, rhs, on, lsuffix, rsuffix)]. *)
Definition mergeResults (lhs rhs : DataFrame DataType) (on : list string)
    (lsuffix rsuffix : string) : JS.obj (Series DataType) :=
  let lhsCols := getColumns on lhs (df_names rhs) lsuffix in
  let rhsCols := getColumns on rhs (df_names lhs) rsuffix in
  if String.eqb lsuffix EmptyString && String.eqb rsuffix EmptyString
  then spread rhsCols lhsCols
  else spread lhsCols rhsCols.

End Join.

Arguments getColumns {DataType} on lhs rhsNames suffix.
Arguments mergeResults {DataType} lhs rhs on lsuffix rsuffix.

(** * Properties *)

(** ** Arithmetic of the ceiling quotient *)

Section CeilDiv.

Lemma ceil_div_bounds (a b : nat) :
  1 <= b ->
  a <= b * JS.ceil_div a b /\ b * JS.ceil_div a b <= a + (b - 1).
Proof.
  intros Hb. unfold JS.ceil_div.
  pose proof (Nat.div_mod_eq (a + (b - 1)) b) as E.
  pose proof (Nat.mod_upper_bound (a + (b - 1)) b ltac:(lia)) as U.
  split; lia.
Qed.

Lemma ceil_div_le (a b : nat) : 1 <= b -> JS.ceil_div a b <= a.
Proof.
  intros Hb. destruct (ceil_div_bounds a b Hb) as [_ H].
  destruct (Nat.eq_dec a 0) as [->|Ha]; nia.
Qed.

Lemma ceil_div_one (a : nat) : JS.ceil_div a 1 = a.
Proof.
  unfold JS.ceil_div. simpl. rewrite Nat.add_0_r. apply Nat.div_1_r.
Qed.

(** A share never exceeds a bound that covers all the items. *)
Lemma ceil_div_le_bound (a b c : nat) :
  1 <= b -> a <= b * c -> JS.ceil_div a b <= c.
Proof.
  intros Hb Hc. destruct (ceil_div_bounds a b Hb) as [_ H]. nia.
Qed.

(** What is left after one share fits into as many shares of that size as
    there are workers left. *)
Lemma ceil_div_rest (a b : nat) :
  a - JS.ceil_div a (S b) <= b * JS.ceil_div a (S b).
Proof.
  destruct (ceil_div_bounds a (S b) ltac:(lia)) as [H _]. lia.
Qed.

End CeilDiv.

(** ** The partition of the paths *)

Section Partition.

Lemma chunk_loop_acc (i : nat) : forall filePath acc,
  chunk_loop i filePath acc
  = (chunk_rest i filePath, acc ++ chunk_paths i filePath).
Proof.
  unfold chunk_rest, chunk_paths.
  induction i as [|i IH]; intros filePath acc; simpl.
  - now rewrite app_nil_r.
  - rewrite IH. rewrite (IH _ [_]). simpl. now rewrite <- app_assoc.
Qed.

Lemma chunk_paths_S (i : nat) (filePath : list string) :
  let k := JS.ceil_div (length filePath) (S i) in
  chunk_paths (S i) filePath
  = firstn k filePath :: chunk_paths i (skipn k filePath).
Proof.
  unfold chunk_paths at 1. simpl. now rewrite chunk_loop_acc.
Qed.

Lemma chunk_rest_S (i : nat) (filePath : list string) :
  chunk_rest (S i) filePath
  = chunk_rest i (skipn (JS.ceil_div (length filePath) (S i)) filePath).
Proof.
  unfold chunk_rest at 1. simpl. now rewrite chunk_loop_acc.
Qed.

Lemma chunk_paths_length (i : nat) : forall filePath,
  length (chunk_paths i filePath) = i.
Proof.
  induction i as [|i IH]; intros filePath.
  - reflexivity.
  - rewrite chunk_paths_S. simpl. now rewrite IH.
Qed.

Lemma chunk_paths_concat (i : nat) : forall filePath,
  concat (chunk_paths i filePath) ++ chunk_rest i filePath = filePath.
Proof.
  induction i as [|i IH]; intros filePath.
  - reflexivity.
  - rewrite chunk_paths_S, chunk_rest_S. simpl.
    rewrite <- app_assoc, IH. apply firstn_skipn.
Qed.

(** With a worker to take them, no path is left behind. *)
Lemma chunk_rest_nil (i : nat) : forall filePath,
  chunk_rest (S i) filePath = [].
Proof.
  induction i as [|i IH]; intros filePath.
  - rewrite chunk_rest_S, ceil_div_one. unfold chunk_rest. simpl.
    apply skipn_all.
  - rewrite chunk_rest_S. apply IH.
Qed.

Lemma chunk_paths_bounded (i : nat) : forall filePath c,
  length filePath <= i * c ->
  Forall (fun chunk => length chunk <= c) (chunk_paths i filePath).
Proof.
  induction i as [|i IH]; intros filePath c Hc.
  - constructor.
  - rewrite chunk_paths_S. cbv zeta.
    assert (Hk : JS.ceil_div (length filePath) (S i) <= c)
      by (apply ceil_div_le_bound; lia).
    constructor.
    + rewrite length_firstn. lia.
    + apply IH. rewrite length_skipn.
      pose proof (ceil_div_rest (length filePath) i). nia.
Qed.

Lemma chunk_paths_first_length (i : nat) (filePath : list string) :
  length (firstn (JS.ceil_div (length filePath) (S i)) filePath)
  = JS.ceil_div (length filePath) (S i).
Proof.
  rewrite length_firstn.
  pose proof (ceil_div_le (length filePath) (S i) ltac:(lia)). lia.
Qed.

(** Every chunk is at least as long as each chunk pushed after it. *)
Lemma chunk_paths_descending (i : nat) : forall filePath j k,
  j <= k -> k < i ->
  length (nth k (chunk_paths i filePath) [])
  <= length (nth j (chunk_paths i filePath) []).
Proof.
  induction i as [|i IH]; intros filePath j k Hjk Hk; [lia|].
  rewrite chunk_paths_S. cbv zeta.
  destruct k as [|k]; [replace j with 0 by lia; reflexivity|].
  destruct j as [|j]; cbn [nth].
  - rewrite chunk_paths_first_length.
    pose proof (chunk_paths_bounded i
                  (skipn (JS.ceil_div (length filePath) (S i)) filePath)
                  (JS.ceil_div (length filePath) (S i))) as B.
    rewrite length_skipn in B.
    specialize (B (ceil_div_rest (length filePath) i)).
    rewrite Forall_forall in B. apply B. apply nth_In.
    rewrite chunk_paths_length. lia.
  - apply IH; lia.
Qed.

Lemma chunk_paths_nth (k : nat) : forall n filePath,
  k < n ->
  nth k (chunk_paths n filePath) []
  = firstn (JS.ceil_div (length (remaining_after k n filePath)) (n - k))
           (remaining_after k n filePath).
Proof.
  induction k as [|k IH]; intros n filePath Hk;
    (destruct n as [|n]; [lia|]); rewrite chunk_paths_S; cbv zeta;
    cbn [nth remaining_after].
  - reflexivity.
  - rewrite Nat.sub_succ, (Nat.sub_0_r n). apply IH. lia.
Qed.

(** C1. For every list of paths and every worker count [N >= 1] the loop of
    [_createFileTable] pushes [N] chunks; the [k]-th chunk pushed (for the
    worker counted [N - k], counting down from [N] to [1]) is the first
    [ceil(remaining / (N - k))] of the paths then remaining; the chunks in
    order make up the input exactly, so every path is in exactly one chunk;
    no chunk is longer than one pushed before it; and seven paths over three
    workers give chunks of 3, 2 and 2 paths. *)
Theorem chunk_paths_partition (N : nat) (filePath : list string) :
  1 <= N ->
  let chunks := chunk_paths N filePath in
  length chunks = N /\
  (forall k, k < N ->
     nth k chunks []
     = firstn (JS.ceil_div (length (remaining_after k N filePath)) (N - k))
              (remaining_after k N filePath)) /\
  concat chunks = filePath /\
  (forall j k, j <= k -> k < N ->
     length (nth k chunks []) <= length (nth j chunks [])) /\
  (length filePath = 7 -> N = 3 -> map (@length string) chunks = [3; 2; 2]).
Proof.
  intros HN chunks. subst chunks.
  split; [apply chunk_paths_length|].
  split; [intros k Hk; now apply chunk_paths_nth|].
  split.
  - pose proof (chunk_paths_concat N filePath) as E.
    destruct N as [|N]; [lia|].
    now rewrite chunk_rest_nil, app_nil_r in E.
  - split; [intros j k; apply chunk_paths_descending|].
    intros H7 ->.
    do 7 (destruct filePath as [|? filePath]; [discriminate|]).
    destruct filePath; [reflexivity|discriminate].
Qed.

Lemma chunk_paths_partition_witness :
  1 <= 3 /\
  concat (chunk_paths 3 Example.paths7) = Example.paths7 /\
  map (@length string) (chunk_paths 3 Example.paths7) = [3; 2; 2].
Proof.
  split; [lia|].
  destruct (chunk_paths_partition 3 Example.paths7 ltac:(lia))
    as (_ & _ & Hconcat & _ & Hsizes).
  split; [exact Hconcat | apply Hsizes; reflexivity].
Defined.

End Partition.

(** ** The coordinator's calls *)

Section Calls.

Variable DataType : Type.

Lemma forEach_call {A : Type} (g : A -> Call DataType) (xs : list A) :
  forall w : World DataType,
    forEach (fun x => call (g x)) xs w
    = (tt, {| ctxToken := ctxToken w; calls := calls w ++ map g xs |}).
Proof.
  induction xs as [|x xs IH]; intros [t cs]; simpl.
  - unfold ret. now rewrite app_nil_r.
  - unfold bind, call at 1. rewrite IH. simpl. now rewrite <- app_assoc.
Qed.

Lemma bind_ret_fst {A B : Type} (m : M DataType A) (b : B)
    (w : World DataType) :
  fst (bind m (fun _ => ret b) w) = b.
Proof. unfold bind, ret. now destruct (m w). Qed.

Lemma bind_ret_snd {A B : Type} (m : M DataType A) (b : B)
    (w : World DataType) :
  snd (bind m (fun _ => ret b) w) = snd (m w).
Proof. unfold bind, ret. now destruct (m w). Qed.

Lemma bind_eq_pair {A B : Type} (m : M DataType A) (f : A -> B)
    (w : World DataType) :
  snd (bind m (fun a => ret (f a)) w) = snd (m w).
Proof. unfold bind, ret. now destruct (m w). Qed.

End Calls.

(** ** Creation and termination of the workers *)

Section Lifecycle.

Variable DataType : Type.
Variable numDevices : nat.

Lemma init_cluster (options : ClusterProps) (w : World DataType) :
  fst (fst (init numDevices options w))
  = new_SQLCluster
      (match id options with Some i => i | None => 0%Z end)
      (Nat.min (match numWorkers options with
                | Some n => n
                | None => numDevices
                end) numDevices).
Proof.
  unfold init, bind, ret.
  now destruct (_createContexts _ _ _ w).
Qed.

Lemma new_SQLCluster_ids (base : Z) (n : nat) :
  map worker_id (rev (_workers (new_SQLCluster base n)))
  = map (fun i => (base + Z.of_nat i)%Z) (seq 0 n).
Proof.
  simpl. rewrite rev_involutive, map_map.
  apply map_ext_in. intros i _.
  destruct i; simpl; [lia|reflexivity].
Qed.

Lemma new_SQLCluster_In (base : Z) (n : nat) (worker : Worker) :
  In worker (_workers (new_SQLCluster base n)) ->
  worker = LocalSQLWorker base \/
  exists i, 0 < i < n /\ worker = RemoteSQLWorker (base + Z.of_nat i) i.
Proof.
  simpl. rewrite <- in_rev, in_map_iff.
  intros (i & <- & Hi). apply in_seq in Hi.
  destruct i; simpl; [now left|right].
  exists (S i). split; [lia|reflexivity].
Qed.

(** C9. [SQLCluster.init] creates [min(numWorkers, Device.numDevices)]
    worker handles, [numWorkers] defaulting to [Device.numDevices]; their
    ids, read from the end of [_workers], are [id, id+1, ...] with [id] the
    base id ([options.id || 0]); the handle with the base id is the
    in-process [LocalSQLWorker] held in [_worker], every other handle is a
    [RemoteSQLWorker]; and the ids are pairwise distinct. *)
Theorem init_workers (options : ClusterProps) (w : World DataType) :
  let c := fst (fst (init numDevices options w)) in
  let n := Nat.min (match numWorkers options with
                    | Some n => n
                    | None => numDevices
                    end) numDevices in
  let base := match id options with Some i => i | None => 0%Z end in
  length (_workers c) = n /\
  map worker_id (rev (_workers c))
  = map (fun i => (base + Z.of_nat i)%Z) (seq 0 n) /\
  _worker c = LocalSQLWorker base /\
  (forall worker, In worker (_workers c) ->
     worker_id worker = base -> worker = _worker c) /\
  (forall worker, In worker (_workers c) ->
     worker_id worker <> base -> is_local worker = false) /\
  NoDup (map worker_id (_workers c)).
Proof.
  intros c n base. subst c. rewrite init_cluster. fold n base.
  split; [simpl; now rewrite length_rev, length_map, length_seq|].
  split; [apply new_SQLCluster_ids|].
  split; [reflexivity|].
  split; [|split].
  - intros worker Hin Hid.
    destruct (new_SQLCluster_In _ _ _ Hin) as [->|(i & Hi & ->)];
      [reflexivity|simpl in Hid; lia].
  - intros worker Hin Hid.
    destruct (new_SQLCluster_In _ _ _ Hin) as [->|(i & Hi & ->)];
      [now simpl in Hid|reflexivity].
  - rewrite <- (rev_involutive (map worker_id _)). apply NoDup_rev.
    rewrite <- map_rev, new_SQLCluster_ids.
    apply Injective_map_NoDup; [|apply seq_NoDup].
    intros i j Hij. lia.
Qed.

(** C8. [kill] calls [kill()] on every worker handle, in the order of
    [_workers], and leaves [_workers] empty; it returns nothing but the
    cluster object and cannot fail; a second [kill] calls no worker and
    leaves the cluster, the token counter and the calls as the first one
    left them. *)
Theorem kill_idempotent (c : SQLCluster) (w : World DataType) :
  let c1 := fst (kill c w) in
  let w1 := snd (kill c w) in
  _workers c1 = [] /\
  _worker c1 = _worker c /\
  calls w1 = calls w ++ map WorkerKill (_workers c) /\
  ctxToken w1 = ctxToken w /\
  kill c1 w1 = (c1, w1).
Proof.
  unfold kill, bind. rewrite forEach_call. simpl. repeat split.
Qed.

End Lifecycle.

(** ** The caller's array of paths *)

Section CallerPaths.

Variables ArrowType DataType : Type.
Variable arrowToCUDFType : option ArrowType -> DataType.
Variable parseSchema : list string -> FileType -> ParsedSchema ArrowType.

Lemma _createFileTable_paths (c : SQLCluster) (tableName : string)
    (filePath : list string) (fileType : FileType)
    (cb : Worker -> list string -> M DataType unit) (w : World DataType) :
  fst (fst (_createFileTable arrowToCUDFType parseSchema
              c tableName filePath fileType cb w))
  = chunk_rest (length (_workers c)) filePath.
Proof.
  unfold _createFileTable. rewrite chunk_loop_acc.
  now rewrite bind_ret_fst.
Qed.

Lemma chunk_rest_cases (workers : list Worker) (filePath : list string) :
  chunk_rest (length workers) filePath
  = match workers with [] => filePath | _ :: _ => [] end.
Proof.
  destruct workers; [reflexivity|apply chunk_rest_nil].
Qed.

(** C10, as the code has it. [createCSVTable], [createParquetTable] and
    [createORCTable] splice the chunks out of the array the caller passed:
    on a cluster with at least one worker that array is empty afterwards; on
    a cluster without workers (after [kill], say) the loop does not run and
    the array is left as it was. *)
Theorem createFileTable_consumes_paths (c : SQLCluster) (tableName : string)
    (filePaths : list string) (w : World DataType) :
  let after := match _workers c with [] => filePaths | _ :: _ => [] end in
  fst (fst (createCSVTable arrowToCUDFType parseSchema
              c tableName filePaths w)) = after /\
  fst (fst (createParquetTable arrowToCUDFType parseSchema
              c tableName filePaths w)) = after /\
  fst (fst (createORCTable arrowToCUDFType parseSchema
              c tableName filePaths w)) = after.
Proof.
  unfold createCSVTable, createParquetTable, createORCTable.
  rewrite !_createFileTable_paths, chunk_rest_cases. auto.
Qed.

End CallerPaths.

(** C10 as stated fails on a cluster whose workers were killed: the array
    the caller passed to [createCSVTable] still holds its path. *)
Lemma createCSVTable_killed_keeps_paths :
  let killed := kill Example.cluster2 Example.world0 in
  fst (fst (createCSVTable Example.arrowToCUDFType
              (Example.parseSchema Example.schema_ab)
              (fst killed) "t" ["a.csv"%string] (snd killed)))
  <> [].
Proof. vm_compute. discriminate. Qed.

(** ** Queries with a statically empty plan *)

Section EmptyPlan.

Variable DataType : Type.
Variable explain : string -> bool -> string.

Lemma gen_run_done (evs : list (Event DataType)) :
  gen_run GDone evs = (GDone, []).
Proof.
  induction evs as [|ev evs IH]; [reflexivity|].
  simpl. destruct ev; now rewrite IH.
Qed.

(** C5. When the plan [explain] reports for a query contains
    [LogicalValues(tuples=[[]])], [sql] returns on the consumer's first
    request without a single batch, whatever happens afterwards; the only
    call it made is the one to [explain]: no worker is sent the query and no
    token is taken. *)
Theorem sql_empty_plan (c : SQLCluster) (query : string)
    (evs : list (Event DataType)) (w : World DataType) :
  JS.includes "LogicalValues(tuples=[[]])" (explain query false) = true ->
  sql_run explain c query evs w
  = ((GDone, [Return]),
     {| ctxToken := ctxToken w;
        calls := calls w ++ [ContextExplain query false] |}).
Proof.
  intros Hplan. unfold sql_run, sql, bind, call at 1. rewrite Hplan.
  unfold ret. rewrite gen_run_done. reflexivity.
Qed.

End EmptyPlan.

Lemma sql_empty_plan_witness :
  JS.includes "LogicalValues(tuples=[[]])"
    (Example.explain "SELECT * FROM t WHERE 1 = 0" false) = true /\
  sql_run Example.explain Example.cluster2 "SELECT * FROM t WHERE 1 = 0"
    [Next; Next] Example.world0
  = ((GDone, [Return]),
     {| ctxToken := 0;
        calls := [ContextExplain "SELECT * FROM t WHERE 1 = 0" false] |}).
Proof.
  split; [reflexivity|].
  apply (sql_empty_plan Example.dtype Example.explain Example.cluster2
           "SELECT * FROM t WHERE 1 = 0" [Next; Next] Example.world0).
  reflexivity.
Defined.

(** ** The token counter *)

Section Tokens.

Variable DataType : Type.
Variable explain : string -> bool -> string.
Variable broadcast : Z -> DataFrame DataType -> list string.

(** A query is sent under the current value of the counter, which it leaves
    one higher. *)
Lemma sql_takes_current_token (c : SQLCluster) (query : string)
    (w : World DataType) :
  JS.includes "LogicalValues(tuples=[[]])" (explain query false) = false ->
  snd (sql explain c query w)
  = {| ctxToken := ctxToken w + 1;
       calls := calls w ++
                ContextExplain query false
                :: map (fun worker => WorkerSql worker query (ctxToken w))
                       (_workers c) |}.
Proof.
  intros Hplan. unfold sql, bind, call at 1. rewrite Hplan.
  unfold get_ctxToken, set_ctxToken. simpl. rewrite forEach_call. simpl.
  now rewrite <- app_assoc.
Qed.

(** A broadcast goes under the current value of the counter, which it leaves
    higher by the number of workers. *)
Lemma createDataFrameTable_takes_current_token (c : SQLCluster)
    (tableName : string) (input : DataFrame DataType) (w : World DataType) :
  snd (createDataFrameTable broadcast c tableName input w)
  = {| ctxToken := ctxToken w + Z.of_nat (length (_workers c));
       calls := calls w ++
                ContextBroadcast (ctxToken w) input
                :: map (fun entry =>
                          WorkerCreateDataFrameTable (fst entry) tableName
                            (nth_error (rev (broadcast (ctxToken w) input))
                                       (snd entry)))
                       (JS.indexed (_workers c)) |}.
Proof.
  unfold createDataFrameTable, bind, get_ctxToken, set_ctxToken.
  unfold call at 1. cbn [ctxToken calls]. rewrite Z.add_simpl_r.
  rewrite forEach_call. cbn [snd ctxToken calls ret].
  now rewrite <- app_assoc.
Qed.

End Tokens.

(** C3 fails on the code.  In a fresh process with two workers,
    [createCSVTable('t', ['a.csv'])] leaves the remote worker without a
    path: the counter goes from 0 to 1 and [send] is given the new value, 1.
    The query that follows takes [ctxToken++], which is 1 again: the send
    and the query carry the same token. *)
Theorem ctxToken_send_then_sql_collide :
  let parse := Example.parseSchema Example.schema_ab in
  let w1 := snd (createCSVTable Example.arrowToCUDFType parse
                   Example.cluster2 "t" ["a.csv"%string] Example.world0) in
  let w2 := snd (sql Example.explain Example.cluster2 "SELECT a FROM t" w1) in
  calls w2
  = [ WorkerCreateCSVTable (LocalSQLWorker 0) "t" ["a.csv"%string];
      ContextSend 1 1 "broadcast_table_message_1"
        (empty_table Example.arrowToCUDFType Example.schema_ab);
      WorkerCreateDataFrameTable (RemoteSQLWorker 1 1) "t"
        (Some "broadcast_table_message_1"%string);
      ContextExplain "SELECT a FROM t" false;
      WorkerSql (RemoteSQLWorker 1 1) "SELECT a FROM t" 1;
      WorkerSql (LocalSQLWorker 0) "SELECT a FROM t" 1 ] /\
  ctxToken w1 = 1%Z /\ ctxToken w2 = 2%Z.
Proof. vm_compute. repeat split. Qed.

(** ** Objects built key by key *)

Section Objects.

Context {V : Type}.

Lemma has_false (key : string) (o : JS.obj V) :
  ~ In key (JS.keys o) -> JS.has key o = false.
Proof.
  unfold JS.has, JS.keys. induction o as [|[k x] o IH]; intros Hin; simpl.
  - reflexivity.
  - simpl in Hin. destruct (String.eqb_spec k key) as [->|_]; [tauto|].
    apply IH. tauto.
Qed.

Lemma insert_index_end (n : N) (key : string) (v : V) (o : JS.obj V) :
  Forall (fun kv => exists m, JS.array_index (fst kv) = Some m /\ (m < n)%N)
         o ->
  JS.insert_index n key v o = o ++ [(key, v)].
Proof.
  induction o as [|[k x] o IH]; intros H; simpl; [reflexivity|].
  inversion H as [|? ? (m & Hm & Hlt) Ho]; subst. simpl in Hm.
  rewrite Hm. apply N.ltb_lt in Hlt. rewrite Hlt. now rewrite IH.
Qed.

Lemma set_in_order (key : string) (v : V) (o : JS.obj V) :
  ~ In key (JS.keys o) ->
  Forall (fun k => JS.lists_before k key = true) (JS.keys o) ->
  JS.set key v o = o ++ [(key, v)].
Proof.
  intros Hin Hord. unfold JS.set. rewrite has_false by assumption.
  destruct (JS.array_index key) as [n|] eqn:Hkey; [|reflexivity].
  apply insert_index_end. unfold JS.keys in Hord. rewrite Forall_map in Hord.
  eapply Forall_impl; [|exact Hord].
  intros kv Hkv. unfold JS.lists_before in Hkv. rewrite Hkey in Hkv.
  destruct (JS.array_index (fst kv)) as [m|]; [|discriminate].
  exists m. split; [reflexivity|now apply N.ltb_lt].
Qed.

Lemma ForallOrdPairs_before {A : Type} (R : A -> A -> Prop) (x : A)
    (l1 l2 : list A) :
  ForallOrdPairs R (l1 ++ x :: l2) -> Forall (fun a => R a x) l1.
Proof.
  induction l1 as [|a l1 IH]; simpl; intros H; [constructor|].
  inversion H as [|? ? Ha Hrest]; subst. constructor.
  - rewrite Forall_forall in Ha. apply Ha, in_elt.
  - now apply IH.
Qed.

(** Adding keys in an order the object keeps appends them one by one. *)
Lemma fold_set_in_order {E : Type} (key : E -> string) (val : E -> V)
    (entries : list E) : forall acc : JS.obj V,
  JS.key_order (JS.keys acc ++ map key entries) ->
  fold_left (fun xs e => JS.set (key e) (val e) xs) entries acc
  = acc ++ map (fun e => (key e, val e)) entries.
Proof.
  induction entries as [|e entries IH]; intros acc [Hnd Hord]; simpl.
  - now rewrite app_nil_r.
  - simpl in Hnd, Hord. rewrite set_in_order.
    + rewrite IH; [now rewrite <- app_assoc|].
      unfold JS.keys. rewrite map_app, <- app_assoc. now split.
    + apply NoDup_remove_2 in Hnd. rewrite in_app_iff in Hnd. tauto.
    + now apply ForallOrdPairs_before in Hord.
Qed.

Lemma set_Forall (P : string * V -> Prop) (key : string) (v : V)
    (o : JS.obj V) :
  Forall P o -> P (key, v) -> Forall P (JS.set key v o).
Proof.
  intros Ho Hv. unfold JS.set. destruct (JS.has key o).
  - unfold JS.replace. rewrite Forall_map.
    eapply Forall_impl; [|exact Ho].
    intros kv Hkv. now destruct (String.eqb (fst kv) key).
  - destruct (JS.array_index key) as [n|].
    + induction Ho as [|[k x] o Hk Ho IH]; simpl.
      * now constructor.
      * destruct (JS.array_index k) as [m|];
          [destruct (m <? n)%N|]; repeat constructor; assumption.
    + apply Forall_app. split; [assumption|now constructor].
Qed.

Lemma fold_set_Forall {E : Type} (P : string * V -> Prop) (key : E -> string)
    (val : E -> V) (entries : list E) : forall acc : JS.obj V,
  Forall P acc -> (forall e, In e entries -> P (key e, val e)) ->
  Forall P (fold_left (fun xs e => JS.set (key e) (val e) xs) entries acc).
Proof.
  induction entries as [|e entries IH]; intros acc Hacc He; simpl.
  - assumption.
  - apply IH.
    + apply set_Forall; [assumption|apply He, in_eq].
    + intros e' He'. apply He. now right.
Qed.

End Objects.

Section Indexed.

Context {A : Type}.

Lemma map_fst_combine_seq (xs : list A) : forall start,
  map fst (combine xs (seq start (length xs))) = xs.
Proof.
  induction xs as [|x xs IH]; intros start; simpl; [|rewrite IH]; reflexivity.
Qed.

Lemma indexed_keys (xs : list A) : map fst (JS.indexed xs) = xs.
Proof. apply map_fst_combine_seq. Qed.

Lemma combine_In_l {B : Type} (x : A) (xs : list A) : forall ys : list B,
  length xs = length ys -> In x xs -> exists y, In (x, y) (combine xs ys).
Proof.
  induction xs as [|x' xs IH]; intros [|y ys] Hlen Hin;
    try discriminate; try contradiction.
  destruct Hin as [->|Hin].
  - exists y. now left.
  - destruct (IH ys) as [y' Hy']; [now injection Hlen|assumption|].
    exists y'. now right.
Qed.

Lemma map_snd_combine {B C : Type} (F : B -> C) (xs : list A) :
  forall ys : list B,
    map (fun e => (fst e, F (snd e))) (combine xs ys)
    = combine xs (map F ys).
Proof.
  induction xs as [|x xs IH]; intros [|y ys]; simpl; try reflexivity.
  now rewrite IH.
Qed.

End Indexed.

(** ** Workers without a path *)

Section EmptyTable.

Variables ArrowType DataType : Type.
Variable arrowToCUDFType : option ArrowType -> DataType.

Lemma empty_table_no_rows (schema : ParsedSchema ArrowType) :
  Forall (fun entry => series_length (snd entry) = 0)
         (df_columns (empty_table arrowToCUDFType schema)).
Proof.
  unfold empty_table, new_DataFrame, _seriesToColumns. simpl.
  apply (fold_set_Forall (fun entry => series_length (snd entry) = 0) fst snd);
    [constructor|].
  intros [k x] Hin. simpl.
  pose proof (fold_set_Forall
                (fun entry : string * Series DataType =>
                   series_length (snd entry) = 0)
                fst
                (fun e : string * nat =>
                   {| series_type :=
                        arrowToCUDFType (nth_error (types schema) (snd e));
                      series_length := 0 |})
                (JS.indexed (names schema)) [] (Forall_nil _)
                (fun e _ => eq_refl)) as H.
  cbv beta in H. rewrite Forall_forall in H. apply (H (k, x)). exact Hin.
Qed.

Lemma empty_table_columns (schema : ParsedSchema ArrowType) :
  JS.key_order (names schema) ->
  df_columns (empty_table arrowToCUDFType schema)
  = map (fun e =>
           (fst e,
            {| series_type :=
                 arrowToCUDFType (nth_error (types schema) (snd e));
               series_length := 0 |}))
        (JS.indexed (names schema)).
Proof.
  intros Hord.
  unfold empty_table, new_DataFrame, _seriesToColumns. simpl.
  pose proof (fold_set_in_order fst
                (fun e : string * nat =>
                   {| series_type :=
                        arrowToCUDFType (nth_error (types schema) (snd e));
                      series_length := 0 |})
                (JS.indexed (names schema)) []) as Hinner.
  cbv beta in Hinner. rewrite Hinner; clear Hinner.
  - simpl. rewrite (fold_set_in_order fst snd); simpl.
    + rewrite <- (map_id (map _ (JS.indexed (names schema)))) at 2.
      apply map_ext. now intros [k x].
    + rewrite map_map. simpl.
      now rewrite (indexed_keys (names schema) : map (fun e => fst e) _ = _).
  - simpl. now rewrite indexed_keys.
Qed.

End EmptyTable.

Section Dispatch.

Variable DataType : Type.
Variable tableName : string.
Variable empty : DataFrame DataType.
Variable g : Worker -> list string -> Call DataType.

Local Abbreviation dispatch :=
  (dispatch_chunk tableName empty (fun worker chunk => call (g worker chunk))).

Lemma dispatch_chunk_step (worker : Worker) (chunk : list string)
    (w : World DataType) :
  snd (dispatch (worker, chunk) w)
  = if 0 <? length chunk then
      {| ctxToken := ctxToken w; calls := calls w ++ [g worker chunk] |}
    else
      let token := (ctxToken w + 1)%Z in
      {| ctxToken := token;
         calls := calls w ++
           [ContextSend (worker_id worker) token
              (broadcast_table_message token) empty;
            WorkerCreateDataFrameTable worker tableName
              (Some (broadcast_table_message token))] |}.
Proof.
  unfold dispatch, dispatch_chunk.
  destruct (0 <? length chunk); [reflexivity|].
  destruct w as [t cs].
  unfold bind, get_ctxToken, set_ctxToken, call. simpl.
  now rewrite <- app_assoc.
Qed.

Lemma forEach_cons {A : Type} (f : A -> M DataType unit) (x : A)
    (xs : list A) (w : World DataType) :
  snd (forEach f (x :: xs) w) = snd (forEach f xs (snd (f x w))).
Proof. simpl. unfold bind. now destruct (f x w). Qed.

Lemma dispatch_extends (entries : list (Worker * list string)) :
  forall w : World DataType,
    (ctxToken w <= ctxToken (snd (forEach dispatch entries w)))%Z /\
    exists more, calls (snd (forEach dispatch entries w)) = calls w ++ more.
Proof.
  induction entries as [|[worker chunk] entries IH]; intros w.
  - simpl. split; [lia|]. exists []. now rewrite app_nil_r.
  - rewrite forEach_cons.
    destruct (IH (snd (dispatch (worker, chunk) w))) as [Ht [more Hmore]].
    rewrite Hmore. rewrite dispatch_chunk_step in *.
    destruct (0 <? length chunk); simpl in *.
    + split; [lia|]. eexists. now rewrite <- app_assoc.
    + split; [lia|]. eexists. now rewrite <- app_assoc.
Qed.

(** What the dispatch does for a worker, by the chunk at its index. *)
Lemma dispatch_In (entries : list (Worker * list string)) :
  forall (w : World DataType) worker chunk,
    In (worker, chunk) entries ->
    let w' := snd (forEach dispatch entries w) in
    if 0 <? length chunk then In (g worker chunk) (calls w')
    else
      exists token, (ctxToken w < token <= ctxToken w')%Z /\
      exists before after,
        calls w'
        = before ++
          [ContextSend (worker_id worker) token
             (broadcast_table_message token) empty;
           WorkerCreateDataFrameTable worker tableName
             (Some (broadcast_table_message token))] ++ after.
Proof.
  induction entries as [|[worker0 chunk0] entries IH];
    intros w worker chunk Hin; [contradiction|].
  cbv zeta. rewrite forEach_cons.
  set (w1 := snd (dispatch (worker0, chunk0) w)).
  destruct (dispatch_extends entries w1) as [Ht [more Hmore]].
  destruct Hin as [Heq|Hin].
  - injection Heq as -> ->.
    pose proof (dispatch_chunk_step worker chunk w) as Hstep. fold w1 in Hstep.
    destruct (0 <? length chunk).
    + rewrite Hmore, Hstep. simpl. rewrite !in_app_iff. simpl. tauto.
    + exists (ctxToken w + 1)%Z.
      assert (ctxToken w1 = ctxToken w + 1)%Z as Ht1 by now rewrite Hstep.
      split; [lia|].
      exists (calls w), more. rewrite Hmore, Hstep. simpl.
      now rewrite <- app_assoc.
  - specialize (IH w1 worker chunk Hin). cbv zeta in IH.
    destruct (0 <? length chunk); [exact IH|].
    destruct IH as (token & Htok & Hcalls).
    exists token. split; [|exact Hcalls].
    assert (ctxToken w <= ctxToken w1)%Z.
    { unfold w1. rewrite dispatch_chunk_step.
      destruct (0 <? length chunk0); simpl; lia. }
    lia.
Qed.

End Dispatch.

Section FileTables.

Variables ArrowType DataType : Type.
Variable arrowToCUDFType : option ArrowType -> DataType.
Variable parseSchema : list string -> FileType -> ParsedSchema ArrowType.

Lemma _createFileTable_world (c : SQLCluster) (tableName : string)
    (filePath : list string) (fileType : FileType)
    (cb : Worker -> list string -> M DataType unit) (w : World DataType) :
  snd (_createFileTable arrowToCUDFType parseSchema
         c tableName filePath fileType cb w)
  = snd (forEach
           (dispatch_chunk tableName
              (empty_table arrowToCUDFType (parseSchema filePath fileType))
              cb)
           (combine (rev (_workers c))
                    (chunk_paths (length (_workers c)) filePath))
           w).
Proof.
  unfold _createFileTable. rewrite chunk_loop_acc.
  now rewrite bind_ret_snd.
Qed.

Lemma createFileTable_eq (fileType : FileType) (c : SQLCluster)
    (tableName : string) (filePaths : list string) :
  createFileTable arrowToCUDFType parseSchema fileType c tableName filePaths
  = _createFileTable arrowToCUDFType parseSchema c tableName filePaths
      fileType
      (fun worker chunk =>
         call (WorkerCreateFileTable fileType tableName worker chunk)).
Proof. now destruct fileType. Qed.


End FileTables.



(** ** Awaiting all workers *)

Section PromiseAll.

Lemma settle_not_pending {A : Type} (wid : Z) (o : JS.Settled A)
    (ps : list (Z * JS.Promise A)) :
  is_pending wid ps = false -> settle wid o ps = ps.
Proof.
  unfold is_pending, settle. induction ps as [|[w p] ps IH]; simpl; intros H.
  - reflexivity.
  - apply orb_false_iff in H. destruct H as [H1 H2]. rewrite IH by assumption.
    destruct p; [reflexivity|].
    rewrite andb_true_r in H1. now rewrite H1.
Qed.

Lemma resolved_not_pending {A : Type} (wid : Z) (ps : list (Z * JS.Promise A)) :
  Forall (fun p => is_resolved p = true) ps -> is_pending wid ps = false.
Proof.
  unfold is_pending. induction 1 as [|[w p] ps Hp _ IH]; simpl.
  - reflexivity.
  - rewrite IH. unfold is_resolved in Hp. simpl in Hp.
    destruct p; [now rewrite andb_false_r|discriminate].
Qed.

Lemma settle_keeps_settled {A : Type} (wid : Z) (o : JS.Settled A)
    (ps : list (Z * JS.Promise A)) (w : Z) (r : JS.Settled A) :
  In (w, Some r) ps -> In (w, Some r) (settle wid o ps).
Proof.
  unfold settle. intros Hin. apply in_map_iff.
  exists (w, Some r). now split.
Qed.

Lemma settle_pending {A : Type} (wid : Z) (o : JS.Settled A)
    (ps : list (Z * JS.Promise A)) :
  is_pending wid ps = true -> In (wid, Some o) (settle wid o ps).
Proof.
  unfold is_pending, settle. rewrite existsb_exists.
  intros ([w p] & Hin & H). simpl in H.
  apply andb_true_iff in H. destruct H as [Hw Hp].
  apply Z.eqb_eq in Hw. subst w. destruct p; [discriminate|].
  apply in_map_iff. exists (wid, None). simpl. now rewrite Z.eqb_refl.
Qed.

Lemma settle_In {A : Type} (wid : Z) (o : JS.Settled A)
    (ps : list (Z * JS.Promise A)) (p' : Z * JS.Promise A) :
  In p' (settle wid o ps) -> In p' ps \/ p' = (wid, Some o).
Proof.
  unfold settle. rewrite in_map_iff. intros ([w p] & <- & Hin). simpl.
  destruct p; [now left|].
  destruct (Z.eqb_spec w wid) as [->|_]; [now right|now left].
Qed.

Lemma all_step_inv (st : AllState) (ev : Z * JS.Settled unit) :
  all_inv st -> all_inv (all_step st ev).
Proof.
  destruct ev as [wid o], st as [ps res]. unfold all_inv, all_step. simpl.
  destruct res as [[v|e]|].
  - intros H. now rewrite settle_not_pending by now apply resolved_not_pending.
  - rewrite !Exists_exists. intros ([w p] & Hin & Hp). simpl in Hp. subst p.
    exists (w, Some (JS.Rejected e)). split; [|reflexivity].
    now apply settle_keeps_settled.
  - intros [Hno Hsome].
    destruct (is_pending wid ps) eqn:Hpend;
      [|now rewrite settle_not_pending].
    destruct o as [v|e].
    + destruct (forallb is_resolved (settle wid (JS.Resolved v) ps)) eqn:Hall.
      * rewrite forallb_forall in Hall. now apply Forall_forall.
      * assert (Hno' : Forall (fun p => forall e, snd p <> Some (JS.Rejected e))
                         (settle wid (JS.Resolved v) ps)).
        { apply Forall_forall. intros p' Hin'.
          destruct (settle_In _ _ _ _ Hin') as [Hin| ->];
            [|intros e; discriminate].
          rewrite Forall_forall in Hno. now apply Hno. }
        split; [exact Hno'|].
        apply Exists_exists.
        destruct (forallb_forall is_resolved
                    (settle wid (JS.Resolved v) ps)) as [_ Hfa].
        destruct (Exists_dec (fun p : Z * JS.Promise unit => snd p = None)
                    (settle wid (JS.Resolved v) ps)) as [Hex|Hnex].
        { intros [w [r|]]; [right; discriminate|now left]. }
        { now apply Exists_exists. }
        exfalso. rewrite Hfa in Hall; [discriminate|].
        intros [w p] Hin'. unfold is_resolved. simpl.
        rewrite Forall_forall in Hno'. specialize (Hno' _ Hin'). simpl in Hno'.
        destruct p as [[v'|e']|]; [reflexivity|now destruct (Hno' e')|].
        exfalso. apply Hnex, Exists_exists. now exists (w, None).
    + apply Exists_exists. exists (wid, Some (JS.Rejected e)).
      split; [now apply settle_pending|reflexivity].
Qed.

Lemma all_run_inv (evs : list (Z * JS.Settled unit)) : forall st,
  all_inv st -> all_inv (all_run st evs).
Proof.
  unfold all_run. induction evs as [|ev evs IH]; intros st H; simpl.
  - exact H.
  - now apply IH, all_step_inv.
Qed.

Lemma promise_all_inv (workers : list Worker) : all_inv (promise_all workers).
Proof.
  unfold all_inv, promise_all. destruct workers as [|worker workers]; simpl.
  - constructor.
  - split; [|now left].
    constructor; [intros e; discriminate|].
    apply Forall_forall. intros p Hin. apply in_map_iff in Hin.
    destruct Hin as (w & <- & _). intros e. discriminate.
Qed.

(** Once [Promise.all] has settled, later answers change nothing. *)
Lemma all_run_settled (evs : list (Z * JS.Settled unit)) : forall st r,
  all_result st = Some r -> all_result (all_run st evs) = Some r.
Proof.
  unfold all_run. induction evs as [|[wid o] evs IH]; intros st r H; simpl.
  - exact H.
  - apply IH. simpl. now rewrite H.
Qed.

Lemma all_inv_resolved (st : AllState) :
  all_inv st ->
  (all_result st = Some (JS.Resolved tt)
   <-> Forall (fun p => is_resolved p = true) (all_promises st)).
Proof.
  unfold all_inv. destruct (all_result st) as [[[]|e]|]; intros H.
  - tauto.
  - split; [discriminate|]. intros Hall. exfalso.
    apply Exists_exists in H. destruct H as (p & Hin & Hp).
    rewrite Forall_forall in Hall. specialize (Hall p Hin).
    destruct p as [w s]. unfold is_resolved in Hall. simpl in *.
    now subst s.
  - split; [discriminate|]. intros Hall. exfalso.
    destruct H as [_ H].
    apply Exists_exists in H. destruct H as (p & Hin & Hp).
    rewrite Forall_forall in Hall. specialize (Hall p Hin).
    destruct p as [w s]. unfold is_resolved in Hall. simpl in *.
    now subst s.
Qed.

End PromiseAll.

Section FanOutOperations.

Variables ArrowType DataType : Type.
Variable arrowToCUDFType : option ArrowType -> DataType.
Variable parseSchema : list string -> FileType -> ParsedSchema ArrowType.
Variable broadcast : Z -> DataFrame DataType -> list string.

Local Abbreviation fan_out' := (fan_out arrowToCUDFType parseSchema broadcast).
Local Abbreviation awaited' := (awaited arrowToCUDFType parseSchema broadcast).

(** Every fan-out awaits one promise per worker. *)
Lemma fan_out_promise_all (c : SQLCluster) (op : FanOut DataType)
    (w : World DataType) :
  fst (fan_out' c op w) = promise_all (_workers c) \/
  fst (fan_out' c op w) = promise_all (rev (_workers c)).
Proof.
  destruct op as [tableName input|fileType tableName filePaths|tableName];
    simpl.
  - left. unfold createDataFrameTable, bind, get_ctxToken, set_ctxToken.
    simpl. unfold call at 1. now destruct (forEach _ _ _).
  - right. rewrite createFileTable_eq. unfold _createFileTable.
    rewrite chunk_loop_acc. unfold bind. now destruct (forEach _ _ _).
  - left. unfold dropTable, bind. now destruct (forEach _ _ _).
Qed.

Lemma fan_out_inv (c : SQLCluster) (op : FanOut DataType)
    (w : World DataType) :
  all_inv (fst (fan_out' c op w)).
Proof.
  destruct (fan_out_promise_all c op w) as [-> | ->]; apply promise_all_inv.
Qed.

(** C6, as the code has it.  [createDataFrameTable], the three file-table
    creations and [dropTable] await [Promise.all] over one promise per
    worker.  The operation succeeds exactly when every worker's promise is
    fulfilled, so success waits for every worker.  It fails with the reason
    of the first worker's promise that is rejected, at that moment, whatever
    the other workers do then or later, without waiting for them.  Nothing
    follows the [await]: the token counter and the calls made are those of
    the dispatch, so no call undoes what a worker has done. *)
Theorem fan_out_fails_fast (c : SQLCluster) (op : FanOut DataType)
    (evs : list (Z * JS.Settled unit)) (w : World DataType) :
  let st := fst (fan_out' c op w) in
  let st' := all_run st evs in
  fst (awaited' c op evs w) = all_result st' /\
  (all_result st' = Some (JS.Resolved tt)
   <-> Forall (fun p => is_resolved p = true) (all_promises st')) /\
  (forall evs1 wid e evs2,
     evs = evs1 ++ (wid, JS.Rejected e) :: evs2 ->
     all_result (all_run st evs1) = None ->
     is_pending wid (all_promises (all_run st evs1)) = true ->
     all_result st' = Some (JS.Rejected e)) /\
  snd (awaited' c op evs w) = snd (fan_out' c op w).
Proof.
  intros st st'. split; [|split; [|split]].
  - unfold awaited, bind, ret. subst st' st.
    now destruct (fan_out' c op w).
  - apply all_inv_resolved, all_run_inv, fan_out_inv.
  - intros evs1 wid e evs2 -> Hres Hpend. subst st'.
    unfold all_run in *. rewrite fold_left_app. simpl.
    apply all_run_settled. simpl. now rewrite Hres, Hpend.
  - unfold awaited, bind, ret. now destruct (fan_out' c op w).
Qed.

End FanOutOperations.

(** A worker that fails settles the operation: the local worker's success
    afterwards changes nothing. *)
Lemma fan_out_fails_fast_witness :
  let st := fst (fan_out Example.arrowToCUDFType
                   (Example.parseSchema Example.schema_ab) Example.broadcast
                   Example.cluster2 (DropTable "t") Example.world0) in
  all_result (all_run st []) = None /\
  is_pending 1 (all_promises (all_run st [])) = true /\
  all_result
    (all_run st [(1%Z, JS.Rejected "NotFoundError"%string);
                 (0%Z, JS.Resolved tt)])
  = Some (JS.Rejected "NotFoundError"%string).
Proof.
  intros st.
  split; [reflexivity|split; [reflexivity|]].
  destruct (fan_out_fails_fast _ _ Example.arrowToCUDFType
              (Example.parseSchema Example.schema_ab) Example.broadcast
              Example.cluster2 (DropTable "t")
              [(1%Z, JS.Rejected "NotFoundError"%string);
               (0%Z, JS.Resolved tt)]
              Example.world0) as (_ & _ & Hfail & _).
  exact (Hfail [] 1%Z "NotFoundError"%string [(0%Z, JS.Resolved tt)]
           eq_refl eq_refl eq_refl).
Defined.

(** C6 as stated fails when a worker fails first: [dropTable] on two
    workers is rejected as soon as the remote worker's promise is, while the
    local worker's promise is still pending. *)
Lemma dropTable_fails_before_all_finish :
  let st := fst (fan_out Example.arrowToCUDFType
                   (Example.parseSchema Example.schema_ab) Example.broadcast
                   Example.cluster2 (DropTable "t") Example.world0) in
  let st' := all_run st [(1%Z, JS.Rejected "NotFoundError"%string)] in
  all_result st' = Some (JS.Rejected "NotFoundError"%string) /\
  all_promises st'
  = [(1%Z, Some (JS.Rejected "NotFoundError"%string)); (0%Z, None)].
Proof. vm_compute. split; reflexivity. Qed.

(** ** The race over the remaining promises *)

Section Race.

Variable DataType : Type.

Local Abbreviation Promises :=
  (list (Z * JS.Promise (list (DataFrame DataType)))).

Lemma splice1_length {A : Type} (idx : nat) : forall xs : list A,
  idx < length xs -> length (JS.splice1 idx xs) = length xs - 1.
Proof.
  induction idx as [|idx IH]; intros [|x xs] H; simpl in *; try lia.
  rewrite IH by lia. lia.
Qed.

Lemma splice1_In {A : Type} (idx : nat) : forall (xs : list A) (x : A),
  In x (JS.splice1 idx xs) -> In x xs.
Proof.
  induction idx as [|idx IH]; intros [|x' xs] x H; simpl in *; auto.
  destruct H as [H|H]; auto.
Qed.

(** What is at another index than [idx] is still there afterwards. *)
Lemma splice1_keeps {A : Type} (idx : nat) : forall (xs : list A) (x y : A),
  nth_error xs idx = Some y -> x <> y -> In x xs -> In x (JS.splice1 idx xs).
Proof.
  induction idx as [|idx IH]; intros [|x' xs] x y Hnth Hneq Hin;
    simpl in *; try contradiction.
  - injection Hnth as ->. destruct Hin as [H|H]; [congruence|exact H].
  - destruct Hin as [H|H]; [now left|right]. now apply (IH xs x y).
Qed.

(** The winner of the race is settled, and every promise before it in the
    array is pending. *)
Lemma first_settled_Some {A : Type} (ps : list (Z * JS.Promise A)) :
  forall idx o,
    first_settled ps = Some (idx, o) ->
    (exists w, nth_error ps idx = Some (w, Some o)) /\
    (forall j, j < idx -> exists w, nth_error ps j = Some (w, None)).
Proof.
  induction ps as [|[w [r|]] ps IH]; intros idx o H; simpl in H.
  - discriminate.
  - injection H as <- <-. split; [now exists w|]. intros j Hj. lia.
  - destruct (first_settled ps) as [[idx' o']|] eqn:E; [|discriminate].
    injection H as <- <-. destruct (IH idx' o' eq_refl) as [Hw Hbefore].
    split; [exact Hw|].
    intros [|j] Hj; [now exists w|]. apply Hbefore. lia.
Qed.

Lemma first_settled_found {A : Type} (ps : list (Z * JS.Promise A)) :
  forall idx w o,
    nth_error ps idx = Some (w, Some o) ->
    (forall j, j < idx -> exists w', nth_error ps j = Some (w', None)) ->
    first_settled ps = Some (idx, o).
Proof.
  induction ps as [|[w0 p0] ps IH]; intros [|idx] w o Hnth Hbefore;
    simpl in *; try discriminate.
  - now injection Hnth as -> ->.
  - destruct (Hbefore 0 ltac:(lia)) as [w' H0]. simpl in H0.
    injection H0 as _ ->.
    rewrite (IH idx w o Hnth); [reflexivity|].
    intros j Hj. apply (Hbefore (S j)). lia.
Qed.

Lemma first_settled_None {A : Type} (ps : list (Z * JS.Promise A)) :
  first_settled ps = None <-> Forall (fun p => snd p = None) ps.
Proof.
  induction ps as [|[w [r|]] ps IH]; simpl.
  - split; [constructor|reflexivity].
  - split; [discriminate|]. intros H. now inversion H.
  - destruct (first_settled ps) as [[idx o]|].
    + split; [discriminate|]. intros H. inversion H as [|? ? _ Hps]; subst.
      apply IH in Hps. discriminate.
    + split; [|reflexivity]. intros _. constructor; [reflexivity|now apply IH].
Qed.

Lemma first_settled_lt {A : Type} (ps : list (Z * JS.Promise A)) idx o :
  first_settled ps = Some (idx, o) -> idx < length ps.
Proof.
  intros H. destruct (first_settled_Some ps idx o H) as [[w Hw] _].
  apply nth_error_Some. now rewrite Hw.
Qed.

(** The length of the array is fuel enough. *)
Lemma drain_fuel (fuel : nat) : forall ps : Promises,
  length ps <= fuel -> drain fuel ps = drain (length ps) ps.
Proof.
  induction fuel as [|fuel IH]; intros ps Hlen.
  - now replace (length ps) with 0 by lia.
  - destruct ps as [|p ps]; [reflexivity|].
    cbn [drain length].
    destruct (first_settled (p :: ps)) as [[idx [dfs|e]]|] eqn:E;
      try reflexivity.
    destruct dfs; [|reflexivity].
    pose proof (first_settled_lt _ _ _ E) as Hidx.
    pose proof (splice1_length idx (p :: ps) Hidx) as Hsp.
    simpl in Hlen, Hsp. rewrite Nat.sub_0_r in Hsp.
    rewrite (IH (JS.splice1 idx (p :: ps))) by lia.
    now rewrite Hsp.
Qed.

(** One turn of the loop. *)
Lemma loop_eq (ps : Promises) :
  loop ps
  = match ps with
    | [] => (GDone, [Return])
    | _ :: _ =>
        match first_settled ps with
        | None => (GRacing (map fst ps), [])
        | Some (idx, JS.Rejected e) => (GFailed e, [Throw e])
        | Some (idx, JS.Resolved (df :: rest)) =>
            (GYielding rest (JS.splice1 idx ps), [Yield df])
        | Some (idx, JS.Resolved []) => loop (JS.splice1 idx ps)
        end
    end.
Proof.
  unfold loop. destruct ps as [|p ps]; [reflexivity|].
  cbn [drain length].
  destruct (first_settled (p :: ps)) as [[idx [[|df rest]|e]]|] eqn:E;
    try reflexivity.
  apply drain_fuel.
  pose proof (splice1_length idx (p :: ps) (first_settled_lt _ _ _ E)) as H.
  simpl in H. simpl. lia.
Qed.

Lemma loop_keeps_pending (n : nat) : forall (ps : Promises) (a : Z),
  length ps <= n ->
  In (a, None) ps ->
  match fst (loop ps) with
  | GRacing pending => In a pending
  | GYielding _ ps' => In (a, None) ps'
  | GDone => False
  | GFailed _ => True
  end.
Proof.
  induction n as [|n IH]; intros ps a Hlen Hin.
  - destruct ps; [contradiction|simpl in Hlen; lia].
  - rewrite loop_eq. destruct ps as [|p ps]; [contradiction|].
    destruct (first_settled (p :: ps)) as [[idx o]|] eqn:E.
    + destruct (first_settled_Some _ _ _ E) as [[w Hw] _].
      assert (Hkeep : In (a, None) (JS.splice1 idx (p :: ps))).
      { apply (splice1_keeps idx _ _ _ Hw); [discriminate|exact Hin]. }
      destruct o as [[|df rest]|e]; simpl; auto.
      apply IH; [|exact Hkeep].
      rewrite splice1_length by (now apply first_settled_lt in E).
      simpl in *. lia.
    + simpl. now apply (in_map fst) in Hin.
Qed.

Lemma splice1_Forall {A : Type} (P : A -> Prop) (idx : nat) :
  forall (xs : list A) (y : A),
    nth_error xs idx = Some y -> P y -> Forall P (JS.splice1 idx xs) ->
    Forall P xs.
Proof.
  induction idx as [|idx IH]; intros [|x xs] y Hnth Hy H;
    simpl in *; try discriminate.
  - injection Hnth as ->. now constructor.
  - inversion H; subst. constructor; [assumption|]. now apply (IH xs y).
Qed.

Lemma loop_done (n : nat) : forall ps : Promises,
  length ps <= n ->
  fst (loop ps) = GDone ->
  Forall (fun p => snd p = Some (JS.Resolved [])) ps.
Proof.
  induction n as [|n IH]; intros ps Hlen Hdone.
  - destruct ps; [constructor|simpl in Hlen; lia].
  - rewrite loop_eq in Hdone. destruct ps as [|p ps]; [constructor|].
    destruct (first_settled (p :: ps)) as [[idx o]|] eqn:E;
      [|discriminate].
    destruct (first_settled_Some _ _ _ E) as [[w Hw] _].
    destruct o as [[|df rest]|e]; try discriminate.
    apply (splice1_Forall _ idx _ _ Hw); [reflexivity|].
    apply IH; [|exact Hdone].
    rewrite splice1_length by (now apply first_settled_lt in E).
    simpl in *. lia.
Qed.

(** The promise that settles while all are pending is the one the race
    returns, and it is the one removed. *)
Lemma racing_settle {A : Type} (wid : Z) (o : JS.Settled A) :
  forall pending : list Z,
    NoDup pending -> In wid pending ->
    exists idx,
      first_settled (settle wid o (map (fun w => (w, None)) pending))
      = Some (idx, o) /\
      JS.splice1 idx (settle wid o (map (fun w => (w, None)) pending))
      = map (fun w => (w, None)) (remove Z.eq_dec wid pending).
Proof.
  induction pending as [|a pending IH]; intros Hnd Hin; [contradiction|].
  inversion Hnd as [|? ? Hnotin Hnd']; subst.
  assert (Hcons : settle wid o (map (fun w => (w, None)) (a :: pending))
                  = (if Z.eqb a wid then (a, Some o) else (a, None))
                    :: settle wid o (map (fun w => (w, None)) pending))
    by reflexivity.
  rewrite Hcons. clear Hcons. cbn [remove].
  destruct (Z.eqb_spec a wid) as [->|Hne].
  - exists 0. split; [reflexivity|].
    destruct (Z.eq_dec wid wid) as [_|]; [|contradiction].
    cbn [JS.splice1]. rewrite notin_remove by assumption.
    apply settle_not_pending.
    unfold is_pending. apply not_true_is_false. rewrite existsb_exists.
    intros ([w p] & Hp & H). apply in_map_iff in Hp.
    destruct Hp as (w' & [= <- <-] & Hw'). simpl in H.
    rewrite andb_true_r in H. apply Z.eqb_eq in H. now subst.
  - destruct Hin as [->|Hin]; [contradiction|].
    destruct (IH Hnd' Hin) as (idx & Hfirst & Hsplice).
    exists (S idx). cbn [first_settled]. rewrite Hfirst.
    split; [reflexivity|].
    destruct (Z.eq_dec wid a) as [->|_]; [contradiction|].
    cbn [JS.splice1 map]. now rewrite <- Hsplice.
Qed.


End Race.



(** ** Rejected promises *)

Section Rejection.

Variable DataType : Type.

Local Abbreviation Promises :=
  (list (Z * JS.Promise (list (DataFrame DataType)))).

Lemma gen_run_app (evs1 evs2 : list (Event DataType)) : forall st,
  gen_run st (evs1 ++ evs2)
  = (fst (gen_run (fst (gen_run st evs1)) evs2),
     snd (gen_run st evs1) ++ snd (gen_run (fst (gen_run st evs1)) evs2)).
Proof.
  induction evs1 as [|ev evs1 IH]; intros st; simpl.
  - now destruct (gen_run st evs2).
  - destruct (gen_step st ev) as [st' out]. rewrite IH.
    destruct (gen_run st' evs1) as [st1 out1]. simpl.
    now rewrite app_assoc.
Qed.

Lemma splice1_Exists {A : Type} (P : A -> Prop) (idx : nat) (xs : list A) :
  Exists P (JS.splice1 idx xs) -> Exists P xs.
Proof.
  rewrite !Exists_exists. intros (x & Hin & Hx).
  exists x. split; [now apply splice1_In in Hin|exact Hx].
Qed.

Lemma splice1_keeps_Exists {A : Type} (P : A -> Prop) (idx : nat)
    (xs : list A) (y : A) :
  nth_error xs idx = Some y -> ~ P y ->
  Exists P xs -> Exists P (JS.splice1 idx xs).
Proof.
  rewrite !Exists_exists. intros Hnth Hy (x & Hin & Hx).
  exists x. split; [|exact Hx].
  apply (splice1_keeps idx xs x y Hnth); [now intros ->|exact Hin].
Qed.

(** With a rejected promise in the array, a turn of the loop throws, or
    yields a batch of a worker that stands before it and keeps it. *)
Lemma loop_rejected (n : nat) : forall ps : Promises,
  length ps <= n ->
  (exists e, Exists (rejected_with e) ps) ->
  (exists e, loop ps = (GFailed e, [Throw e]) /\ Exists (rejected_with e) ps)
  \/
  (exists df rest ps',
     loop ps = (GYielding rest ps', [Yield df]) /\
     length ps' < length ps /\
     (exists e, Exists (rejected_with e) ps') /\
     (forall e, Exists (rejected_with e) ps' -> Exists (rejected_with e) ps)).
Proof.
  induction n as [|n IH]; intros ps Hlen [e0 Hrej].
  - destruct ps; [inversion Hrej|simpl in Hlen; lia].
  - rewrite loop_eq. destruct ps as [|p ps]; [inversion Hrej|].
    destruct (first_settled (p :: ps)) as [[idx o]|] eqn:E.
    + destruct (first_settled_Some _ _ _ E) as [[w Hw] _].
      pose proof (splice1_length idx (p :: ps) (first_settled_lt _ _ _ E))
        as Hsp.
      destruct o as [dfs|e].
      * assert (Hkeep : Exists (rejected_with e0) (JS.splice1 idx (p :: ps))).
        { apply (splice1_keeps_Exists _ idx _ _ Hw); [discriminate|exact Hrej]. }
        destruct dfs as [|df rest].
        -- destruct (IH (JS.splice1 idx (p :: ps))) as
             [(e & Hloop & He)|(df & rest & ps' & Hloop & Hlt & He & Hsub)];
             [simpl in *; lia|now exists e0| |].
           ++ left. exists e. split; [exact Hloop|].
              now apply splice1_Exists in He.
           ++ right. exists df, rest, ps'.
              split; [exact Hloop|split; [simpl in *; lia|split; [exact He|]]].
              intros e H. now apply splice1_Exists with (idx := idx), Hsub.
        -- right. exists df, rest, (JS.splice1 idx (p :: ps)).
           split; [reflexivity|split; [simpl in *; lia|split]].
           ++ now exists e0.
           ++ intros e. apply splice1_Exists.
      * left. exists e. split; [reflexivity|].
        apply Exists_exists. exists (w, Some (JS.Rejected e)).
        split; [now apply nth_error_In in Hw|reflexivity].
    + exfalso. apply first_settled_None in E.
      apply Exists_exists in Hrej. destruct Hrej as (q & Hq & Hrq).
      rewrite Forall_forall in E. specialize (E q Hq).
      unfold rejected_with in Hrq. destruct q as [w s]. simpl in *.
      subst s. discriminate.
Qed.

Lemma settle_keeps_rejected (wid : Z) (o : JS.Settled (list (DataFrame DataType)))
    (ps : Promises) (e : JS.Error) :
  Exists (rejected_with e) ps -> Exists (rejected_with e) (settle wid o ps).
Proof.
  rewrite !Exists_exists. intros ([w p] & Hin & Hp).
  unfold rejected_with in Hp. simpl in Hp. subst p.
  exists (w, Some (JS.Rejected e)).
  split; [now apply settle_keeps_settled|reflexivity].
Qed.

(** A generator that holds a rejected promise is suspended at a [yield] or
    has thrown: it neither returns nor waits. *)
Lemma gen_step_keeps_rejection (st : GenState DataType)
    (ev : Event DataType) :
  match st with
  | GYielding _ ps => exists e, Exists (rejected_with e) ps
  | GFailed _ => True
  | _ => False
  end ->
  match fst (gen_step st ev) with
  | GYielding _ ps => exists e, Exists (rejected_with e) ps
  | GFailed _ => True
  | _ => False
  end.
Proof.
  destruct st as [pending|buffer ps| |e]; try contradiction; [|trivial].
  intros [e Hrej]. destruct ev as [|wid o]; simpl.
  - destruct buffer as [|df rest]; [|now exists e].
    destruct (loop_rejected (length ps) ps (le_n _) (ex_intro _ e Hrej))
      as [(e' & -> & _)|(df & rest & ps' & -> & _ & He & _)];
      [exact I|exact He].
  - destruct buffer; simpl; exists e; now apply settle_keeps_rejected.
Qed.

Lemma gen_run_keeps_rejection (evs : list (Event DataType)) :
  forall st : GenState DataType,
    match st with
    | GYielding _ ps => exists e, Exists (rejected_with e) ps
    | GFailed _ => True
    | _ => False
    end ->
    match fst (gen_run st evs) with
    | GYielding _ ps => exists e, Exists (rejected_with e) ps
    | GFailed _ => True
    | _ => False
    end.
Proof.
  induction evs as [|ev evs IH]; intros st H; simpl; [exact H|].
  pose proof (gen_step_keeps_rejection st ev H) as H'.
  destruct (gen_step st ev) as [st' out]. simpl in H'.
  specialize (IH st' H'). now destruct (gen_run st' evs).
Qed.

(** A consumer that keeps asking is thrown the reason of a rejected
    promise, after batches only. *)
Lemma gen_run_throws (n : nat) : forall (ps : Promises) buffer,
  length ps <= n ->
  (exists e, Exists (rejected_with e) ps) ->
  exists k e outs,
    gen_run (GYielding buffer ps) (repeat Next k)
    = (GFailed e, outs ++ [Throw e]) /\
    Exists (rejected_with e) ps /\
    forallb is_yield outs = true.
Proof.
  induction n as [|n IH]; intros ps buffer Hlen Hrej.
  - destruct Hrej as [e Hrej]. destruct ps; [inversion Hrej|simpl in Hlen; lia].
  - induction buffer as [|df rest IHbuf].
    + destruct (loop_rejected (length ps) ps (le_n _) Hrej)
        as [(e & Hloop & He)|(df & rest & ps' & Hloop & Hlt & He & Hsub)].
      * exists 1, e, []. simpl. rewrite Hloop. auto.
      * destruct (IH ps' rest ltac:(lia) He) as (k & e & outs & Hrun & He' & Hy).
        exists (S k), e, (Yield df :: outs). simpl. rewrite Hloop, Hrun.
        auto.
    + destruct IHbuf as (k & e & outs & Hrun & He & Hy).
      exists (S k), e, (Yield df :: outs). simpl. rewrite Hrun. auto.
Qed.

Lemma racing_reject (wid : Z) (o : JS.Settled (list (DataFrame DataType))) :
  forall pending : list Z,
    In wid pending ->
    exists idx,
      first_settled (settle wid o (map (fun w => (w, None)) pending))
      = Some (idx, o).
Proof.
  induction pending as [|a pending IH]; intros Hin; [contradiction|].
  assert (Hcons : settle wid o (map (fun w => (w, None)) (a :: pending))
                  = (if Z.eqb a wid then (a, Some o) else (a, None))
                    :: settle wid o (map (fun w => (w, None)) pending))
    by reflexivity.
  rewrite Hcons. destruct (Z.eqb_spec a wid) as [->|Hne].
  - now exists 0.
  - destruct Hin as [->|Hin]; [contradiction|].
    destruct (IH Hin) as (idx & Hfirst).
    exists (S idx). cbn [first_settled]. now rewrite Hfirst.
Qed.


End Rejection.


(** * Further properties of the cluster *)

(** ** How evenly the paths are spread *)

Section Balance.

Lemma chunk_paths_at_least (i : nat) : forall filePath q,
  q * i <= length filePath ->
  Forall (fun chunk => q <= length chunk) (chunk_paths i filePath).
Proof.
  induction i as [|i IH]; intros filePath q Hq.
  - constructor.
  - rewrite chunk_paths_S. cbv zeta.
    destruct (ceil_div_bounds (length filePath) (S i) ltac:(lia)) as [Hlo Hhi].
    constructor.
    + rewrite chunk_paths_first_length.
      set (c := JS.ceil_div (length filePath) (S i)) in *. nia.
    + apply IH. rewrite length_skipn.
      set (c := JS.ceil_div (length filePath) (S i)) in *. nia.
Qed.

(** X1. No worker is given more than one path more than another: with
    [N >= 1] workers every chunk holds at least [floor(m / N)] and at most
    [ceil(m / N)] of the [m] paths. *)
Theorem chunk_paths_balanced (N : nat) (filePath : list string) (k : nat) :
  1 <= N -> k < N ->
  length filePath / N <= length (nth k (chunk_paths N filePath) [])
  /\ length (nth k (chunk_paths N filePath) [])
     <= JS.ceil_div (length filePath) N
  /\ JS.ceil_div (length filePath) N <= length filePath / N + 1.
Proof.
  intros HN Hk.
  assert (Hin : In (nth k (chunk_paths N filePath) [])
                   (chunk_paths N filePath))
    by (apply nth_In; now rewrite chunk_paths_length).
  split; [|split].
  - pose proof (chunk_paths_at_least N filePath (length filePath / N)) as H.
    rewrite Forall_forall in H. apply H; [|exact Hin].
    rewrite Nat.mul_comm. apply Nat.Div0.mul_div_le.
  - pose proof (chunk_paths_bounded N filePath
                  (JS.ceil_div (length filePath) N)) as H.
    rewrite Forall_forall in H. apply H; [|exact Hin].
    destruct (ceil_div_bounds (length filePath) N HN) as [Hlo _]. lia.
  - destruct (ceil_div_bounds (length filePath) N HN) as [_ Hhi].
    pose proof (Nat.div_mod_eq (length filePath) N) as E.
    pose proof (Nat.mod_upper_bound (length filePath) N ltac:(lia)) as U.
    nia.
Qed.

Lemma chunk_paths_balanced_witness :
  1 <= 3 /\ 1 < 3 /\
  7 / 3 <= length (nth 1 (chunk_paths 3 Example.paths7) []) <= 7 / 3 + 1.
Proof.
  destruct (chunk_paths_balanced 3 Example.paths7 1 ltac:(lia) ltac:(lia))
    as (Hlo & Hhi & Hceil).
  change (length Example.paths7) with 7 in *.
  split; [lia|split; [lia|split; [exact Hlo|lia]]].
Defined.

(** The [k]-th chunk is empty exactly when there are no more than [k]
    paths. *)
Lemma chunk_paths_empty_iff (i : nat) : forall filePath k,
  k < i ->
  (length (nth k (chunk_paths i filePath) []) = 0 <-> length filePath <= k).
Proof.
  induction i as [|i IH]; intros filePath k Hk; [lia|].
  rewrite chunk_paths_S. cbv zeta.
  destruct (ceil_div_bounds (length filePath) (S i) ltac:(lia)) as [Hlo Hhi].
  pose proof (ceil_div_le (length filePath) (S i) ltac:(lia)) as Hle.
  destruct k as [|k]; cbn [nth].
  - rewrite chunk_paths_first_length. lia.
  - rewrite (IH _ k) by lia. rewrite length_skipn.
    set (c := JS.ceil_div (length filePath) (S i)) in *.
    split; intros H.
    + destruct (Nat.le_gt_cases c 1); [lia|nia].
    + destruct (Nat.eq_dec (length filePath) 0); [lia|].
      assert (1 <= c) by nia. lia.
Qed.

(** X2. Paths are handed out from the first worker on without a gap: with
    [N] workers and [m] paths, the [k]-th chunk is empty exactly when
    [k >= m].  So the first [min(m, N)] workers get paths and only the
    workers after them get none. *)
Theorem chunk_paths_empty_tail (N : nat) (filePath : list string) (k : nat) :
  k < N ->
  (nth k (chunk_paths N filePath) [] = [] <-> length filePath <= k).
Proof.
  intros Hk. rewrite <- (chunk_paths_empty_iff N filePath k Hk).
  split; [now intros ->|apply length_zero_iff_nil].
Qed.

Lemma chunk_paths_empty_tail_witness :
  2 < 3 /\
  (nth 2 (chunk_paths 3 ["a.csv"; "b.csv"]%string) [] = []
   <-> length ["a.csv"; "b.csv"]%string <= 2).
Proof.
  split; [lia|].
  apply (chunk_paths_empty_tail 3 ["a.csv"; "b.csv"]%string 2). lia.
Defined.

End Balance.

(** ** What a file-table creation asks of the workers *)

Section FileTableUse.

Variables ArrowType DataType : Type.
Variable arrowToCUDFType : option ArrowType -> DataType.
Variable parseSchema : list string -> FileType -> ParsedSchema ArrowType.

Local Abbreviation no_paths :=
  (fun chunk : list string => negb (0 <? length chunk)).

Lemma chunk_paths_empty_count (i : nat) : forall filePath,
  length (filter no_paths (chunk_paths i filePath))
  = i - Nat.min (length filePath) i.
Proof.
  induction i as [|i IH]; intros filePath; [reflexivity|].
  rewrite chunk_paths_S. cbv zeta. cbn [filter].
  rewrite chunk_paths_first_length.
  destruct (ceil_div_bounds (length filePath) (S i) ltac:(lia)) as [Hlo Hhi].
  pose proof (ceil_div_le (length filePath) (S i) ltac:(lia)) as Hle.
  specialize (IH (skipn (JS.ceil_div (length filePath) (S i)) filePath)).
  rewrite length_skipn in IH.
  set (c := JS.ceil_div (length filePath) (S i)) in *.
  destruct (Nat.ltb_spec 0 c) as [Hc|Hc]; cbn [negb length]; rewrite IH.
  - destruct (Nat.le_gt_cases c 1); [lia|nia].
  - assert (length filePath = 0) by nia. lia.
Qed.

Lemma filter_snd_combine {A B : Type} (P : B -> bool) (xs : list A) :
  forall ys : list B,
    length xs = length ys ->
    length (filter (fun e => P (snd e)) (combine xs ys))
    = length (filter P ys).
Proof.
  induction xs as [|x xs IH]; intros [|y ys] Hlen; try discriminate;
    [reflexivity|].
  simpl. destruct (P y); simpl; rewrite IH; auto.
Qed.

Lemma map_snd_combine_eq {A B : Type} (xs : list A) : forall ys : list B,
  length xs = length ys -> map snd (combine xs ys) = ys.
Proof.
  induction xs as [|x xs IH]; intros [|y ys] Hlen; try discriminate;
    [reflexivity|].
  simpl. rewrite IH; auto.
Qed.

Variable tableName : string.
Variable empty : DataFrame DataType.
Variable g : Worker -> list string -> Call DataType.

Local Abbreviation dispatch :=
  (dispatch_chunk tableName empty (fun worker chunk => call (g worker chunk))).

(** Every chunk without a path costs one token. *)
Lemma dispatch_token (entries : list (Worker * list string)) :
  forall w : World DataType,
    ctxToken (snd (forEach dispatch entries w))
    = (ctxToken w
       + Z.of_nat (length (filter (fun e => no_paths (snd e)) entries)))%Z.
Proof.
  induction entries as [|[worker chunk] entries IH]; intros w.
  - simpl. lia.
  - rewrite forEach_cons, IH, dispatch_chunk_step. cbn [filter snd].
    destruct (0 <? length chunk); cbn [negb ctxToken length]; lia.
Qed.

(** The calls of the dispatch, read for the paths they carry. *)
Lemma dispatch_paths (entries : list (Worker * list string)) :
  (forall worker chunk, call_paths (g worker chunk) = chunk) ->
  forall w : World DataType,
    exists more,
      calls (snd (forEach dispatch entries w)) = calls w ++ more /\
      flat_map call_paths more = concat (map snd entries) /\
      Forall (fun c => call_worker c <> None -> call_paths c = [] ->
                       exists worker id, c = WorkerCreateDataFrameTable
                                               worker tableName (Some id))
             more.
Proof.
  intros Hg. induction entries as [|[worker chunk] entries IH]; intros w.
  - exists []. simpl. now rewrite app_nil_r.
  - rewrite forEach_cons.
    destruct (IH (snd (dispatch (worker, chunk) w)))
      as (more & Hcalls & Hpaths & Hall).
    rewrite Hcalls, dispatch_chunk_step.
    destruct (0 <? length chunk) eqn:Hlen; cbn [calls map snd concat].
    + exists (g worker chunk :: more). rewrite <- app_assoc.
      split; [reflexivity|]. cbn [flat_map]. rewrite Hg, Hpaths.
      split; [reflexivity|]. constructor; [|exact Hall].
      intros _ Hnil. rewrite Hg in Hnil. subst chunk. discriminate.
    + eexists. rewrite <- app_assoc. split; [reflexivity|].
      apply Nat.ltb_ge in Hlen.
      assert (chunk = []) as -> by (destruct chunk; [reflexivity|simpl in Hlen; lia]).
      cbn [flat_map call_paths app]. split; [exact Hpaths|].
      constructor; [intros H; now destruct H|].
      constructor; [|exact Hall].
      intros _ _. eauto.
Qed.

End FileTableUse.

Section FileTableTheorems.

Variables ArrowType DataType : Type.
Variable arrowToCUDFType : option ArrowType -> DataType.
Variable parseSchema : list string -> FileType -> ParsedSchema ArrowType.

Local Abbreviation createFileTable' :=
  (createFileTable arrowToCUDFType parseSchema).

Lemma call_paths_file_table (fileType : FileType) (tableName : string)
    (worker : Worker) (chunk : list string) :
  call_paths (WorkerCreateFileTable (DataType := DataType)
                fileType tableName worker chunk) = chunk.
Proof. now destruct fileType. Qed.

(** X3. A file-table creation takes one token for every worker that is left
    without a path and none otherwise: with [N] workers and [m] paths the
    counter grows by [N - min(m, N)].  In particular it is untouched when
    there are at least as many paths as workers. *)
Theorem createFileTable_tokens (fileType : FileType) (c : SQLCluster)
    (tableName : string) (filePaths : list string) (w : World DataType) :
  ctxToken (snd (createFileTable' fileType c tableName filePaths w))
  = (ctxToken w
     + Z.of_nat (length (_workers c)
                 - Nat.min (length filePaths) (length (_workers c))))%Z.
Proof.
  rewrite createFileTable_eq, _createFileTable_world, dispatch_token.
  rewrite (filter_snd_combine (fun chunk => negb (0 <? length chunk)))
    by now rewrite length_rev, chunk_paths_length.
  now rewrite chunk_paths_empty_count.
Qed.

(** X4. On a cluster with at least one worker a file-table creation asks
    the workers to load every path exactly once: the paths of the calls it
    makes, read in the order of the calls, are the caller's paths in their
    order.  No worker is asked to load an empty list of paths: a worker call
    without paths is the registration of a table that was sent. *)
Theorem createFileTable_loads_each_path_once (fileType : FileType)
    (c : SQLCluster) (tableName : string) (filePaths : list string)
    (w : World DataType) :
  _workers c <> [] ->
  exists more,
    calls (snd (createFileTable' fileType c tableName filePaths w))
    = calls w ++ more /\
    flat_map call_paths more = filePaths /\
    Forall (fun call => call_worker call <> None -> call_paths call = [] ->
                        exists worker id,
                          call = WorkerCreateDataFrameTable worker tableName
                                   (Some id))
           more.
Proof.
  intros Hworkers.
  rewrite createFileTable_eq, _createFileTable_world.
  destruct (dispatch_paths DataType tableName
              (empty_table arrowToCUDFType (parseSchema filePaths fileType))
              (WorkerCreateFileTable fileType tableName)
              (combine (rev (_workers c))
                       (chunk_paths (length (_workers c)) filePaths))
              (call_paths_file_table fileType tableName) w)
    as (more & Hcalls & Hpaths & Hall).
  exists more. split; [exact Hcalls|split; [|exact Hall]].
  rewrite Hpaths, map_snd_combine_eq
    by now rewrite length_rev, chunk_paths_length.
  pose proof (chunk_paths_concat (length (_workers c)) filePaths) as E.
  destruct (_workers c) as [|worker workers]; [contradiction|].
  simpl length in E. now rewrite chunk_rest_nil, app_nil_r in E.
Qed.

End FileTableTheorems.

Lemma createFileTable_loads_each_path_once_witness :
  _workers Example.cluster3 <> [] /\
  exists more,
    calls (snd (createFileTable Example.arrowToCUDFType
                  (Example.parseSchema Example.schema_ab) parquet
                  Example.cluster3 "t" ["a.parquet"; "b.parquet"]%string
                  Example.world0))
    = calls Example.world0 ++ more /\
    flat_map call_paths more = ["a.parquet"; "b.parquet"]%string.
Proof.
  assert (H : _workers Example.cluster3 <> []) by discriminate.
  split; [exact H|].
  destruct (createFileTable_loads_each_path_once _ _ Example.arrowToCUDFType
              (Example.parseSchema Example.schema_ab) parquet
              Example.cluster3 "t"%string ["a.parquet"; "b.parquet"]%string
              Example.world0 H) as (more & Hcalls & Hpaths & _).
  exists more. split; assumption.
Defined.

(** ** Which worker gets what *)

Section Assignment.

Variables ArrowType DataType : Type.
Variable arrowToCUDFType : option ArrowType -> DataType.
Variable parseSchema : list string -> FileType -> ParsedSchema ArrowType.
Variable broadcast : Z -> DataFrame DataType -> list string.

(** The worker the constructor creates at index [k]. *)
Local Abbreviation created base k :=
  (if Nat.eqb k 0 then LocalSQLWorker base
   else RemoteSQLWorker (base + Z.of_nat k) k).

Lemma new_SQLCluster_created (base : Z) (n k : nat) :
  k < n ->
  nth k (rev (_workers (new_SQLCluster base n))) (LocalSQLWorker base)
  = created base k.
Proof.
  intros Hk. simpl. rewrite rev_involutive.
  pose proof (map_nth (fun i => created base i) (seq 0 n) 0 k) as H.
  rewrite seq_nth in H by assumption. exact H.
Qed.

Lemma combine_nth_In {A B : Type} (xs : list A) (ys : list B) (k : nat)
    (dx : A) (dy : B) :
  length xs = length ys -> k < length xs ->
  In (nth k xs dx, nth k ys dy) (combine xs ys).
Proof.
  intros Hlen Hk. rewrite <- combine_nth by assumption.
  apply nth_In. rewrite length_combine. lia.
Qed.

(** X5. On a cluster as the constructor builds it, paths go to the workers
    in the order the workers were created: the [k]-th chunk goes to the
    worker created at index [k], so the in-process worker is served first
    and has the largest chunk.  The worker at index [k] is asked to load
    its chunk when there are more than [k] paths; otherwise it is sent the
    empty table. *)
Theorem createFileTable_serves_in_creation_order (fileType : FileType)
    (base : Z) (n k : nat) (tableName : string) (filePaths : list string)
    (w : World DataType) :
  k < n ->
  let c := new_SQLCluster base n in
  let chunk := nth k (chunk_paths n filePaths) [] in
  let w' := snd (createFileTable arrowToCUDFType parseSchema
                   fileType c tableName filePaths w) in
  if k <? length filePaths then
    chunk <> [] /\
    In (WorkerCreateFileTable fileType tableName (created base k) chunk)
       (calls w')
  else
    chunk = [] /\
    exists token,
      In (ContextSend (base + Z.of_nat k) token
            (broadcast_table_message token)
            (empty_table arrowToCUDFType (parseSchema filePaths fileType)))
         (calls w') /\
      In (WorkerCreateDataFrameTable (created base k) tableName
            (Some (broadcast_table_message token)))
         (calls w').
Proof.
  intros Hk c chunk w'.
  assert (Hn : length (_workers c) = n)
    by (simpl; now rewrite length_rev, length_map, length_seq).
  assert (Hin : In (created base k, chunk)
                   (combine (rev (_workers c))
                            (chunk_paths (length (_workers c)) filePaths))).
  { rewrite <- (new_SQLCluster_created base n k Hk). unfold chunk.
    rewrite Hn. apply combine_nth_In.
    - now rewrite length_rev, chunk_paths_length.
    - rewrite length_rev. lia. }
  pose proof (dispatch_In DataType tableName
                (empty_table arrowToCUDFType (parseSchema filePaths fileType))
                (WorkerCreateFileTable fileType tableName) _ w _ _ Hin) as H.
  cbv zeta in H. rewrite <- _createFileTable_world, <- createFileTable_eq in H.
  fold w' in H.
  pose proof (chunk_paths_empty_iff n filePaths k Hk) as Hempty.
  fold chunk in Hempty.
  destruct (Nat.ltb_spec k (length filePaths)) as [Hlt|Hge].
  - assert (Hpos : 0 < length chunk) by lia.
    apply Nat.ltb_lt in Hpos. rewrite Hpos in H.
    split; [|exact H]. intros E. rewrite E in Hpos. discriminate.
  - assert (Hzero : length chunk = 0) by (apply Hempty; lia).
    rewrite Hzero in H. cbn [Nat.ltb Nat.leb] in H.
    split; [now apply length_zero_iff_nil|].
    destruct H as (token & _ & before & after & Hcalls).
    exists token.
    assert (Hid : worker_id (created base k) = (base + Z.of_nat k)%Z).
    { destruct k; simpl; [lia|reflexivity]. }
    rewrite Hid in Hcalls. rewrite Hcalls.
    split; apply in_or_app; right; simpl; auto.
Qed.

End Assignment.

Lemma createFileTable_serves_in_creation_order_witness :
  0 < 3 /\
  In (WorkerCreateCSVTable (LocalSQLWorker 0) "t" ["a.csv"%string])
     (calls (snd (createFileTable Example.arrowToCUDFType
                    (Example.parseSchema Example.schema_ab) csv
                    (new_SQLCluster 0 3) "t" ["a.csv"; "b.csv"]%string
                    Example.world0))).
Proof.
  split; [lia|].
  exact (proj2 (createFileTable_serves_in_creation_order _ _
                  Example.arrowToCUDFType
                  (Example.parseSchema Example.schema_ab) csv 0%Z 3 0
                  "t"%string ["a.csv"; "b.csv"]%string Example.world0
                  ltac:(lia))).
Defined.

(** ** Broadcast tables *)

Section BroadcastTables.

Variable DataType : Type.
Variable broadcast : Z -> DataFrame DataType -> list string.

Lemma combine_app {A B : Type} (xs1 : list A) : forall (ys1 : list B) xs2 ys2,
  length xs1 = length ys1 ->
  combine (xs1 ++ xs2) (ys1 ++ ys2) = combine xs1 ys1 ++ combine xs2 ys2.
Proof.
  induction xs1 as [|x xs1 IH]; intros [|y ys1] xs2 ys2 Hlen;
    try discriminate; [reflexivity|].
  simpl. rewrite IH; auto.
Qed.

Lemma combine_rev {A B : Type} (xs : list A) : forall ys : list B,
  length xs = length ys ->
  combine (rev xs) (rev ys) = rev (combine xs ys).
Proof.
  induction xs as [|x xs IH]; intros [|y ys] Hlen; try discriminate;
    [reflexivity|].
  simpl. rewrite combine_app by (rewrite !length_rev; auto).
  rewrite IH; auto.
Qed.

Lemma indexed_lookup {A B C : Type} (G : A -> option B -> C) (xs : list A) :
  forall (ys pre : list B),
    length ys = length xs ->
    map (fun e => G (fst e) (nth_error (pre ++ ys) (snd e)))
        (combine xs (seq (length pre) (length xs)))
    = map (fun p => G (fst p) (Some (snd p))) (combine xs ys).
Proof.
  induction xs as [|x xs IH]; intros [|y ys] pre Hlen;
    try discriminate; [reflexivity|].
  simpl. f_equal.
  - rewrite nth_error_app2, Nat.sub_diag by lia. reflexivity.
  - specialize (IH ys (pre ++ [y])).
    rewrite <- app_assoc, length_app, Nat.add_1_r in IH. simpl in IH.
    apply IH. now injection Hlen.
Qed.

(** X6. When [broadcast] returns one reference per worker,
    [createDataFrameTable] asks every worker to register the table under
    the reference at its own place: read from the last call back to the
    first, the calls pair the workers in the order they were created with
    the references in the order [broadcast] returned them.  The broadcast
    itself goes out first, under the value the counter had, and the counter
    ends higher by the number of workers. *)
Theorem createDataFrameTable_pairs_references (c : SQLCluster)
    (tableName : string) (input : DataFrame DataType) (w : World DataType) :
  let ids := broadcast (ctxToken w) input in
  let w' := snd (createDataFrameTable broadcast c tableName input w) in
  length ids = length (_workers c) ->
  exists registrations,
    calls w' = calls w ++ ContextBroadcast (ctxToken w) input :: registrations
    /\ rev registrations
       = map (fun p => WorkerCreateDataFrameTable (fst p) tableName
                         (Some (snd p)))
             (combine (rev (_workers c)) ids)
    /\ ctxToken w' = (ctxToken w + Z.of_nat (length (_workers c)))%Z.
Proof.
  intros ids w' Hlen. subst w'.
  rewrite createDataFrameTable_takes_current_token. cbn [calls ctxToken].
  eexists. split; [reflexivity|split; [|reflexivity]].
  fold ids. unfold JS.indexed.
  rewrite (indexed_lookup
             (fun worker id => WorkerCreateDataFrameTable worker tableName id)
             (_workers c) (rev ids) [])
    by now rewrite length_rev.
  rewrite <- map_rev, <- combine_rev, rev_involutive
    by now rewrite length_rev.
  reflexivity.
Qed.

End BroadcastTables.

Lemma createDataFrameTable_pairs_references_witness :
  let broadcast := fun (_ : Z) (_ : DataFrame Example.dtype) =>
                     ["ref0"; "ref1"; "ref2"]%string in
  let w' := snd (createDataFrameTable broadcast Example.cluster3 "t"
                   Example.batch0 Example.world0) in
  length (broadcast 0%Z Example.batch0) = length (_workers Example.cluster3)
  /\ exists registrations,
       calls w' = ContextBroadcast 0 Example.batch0 :: registrations /\
       rev registrations
       = [WorkerCreateDataFrameTable (LocalSQLWorker 0) "t"
            (Some "ref0"%string);
          WorkerCreateDataFrameTable (RemoteSQLWorker 1 1) "t"
            (Some "ref1"%string);
          WorkerCreateDataFrameTable (RemoteSQLWorker 2 2) "t"
            (Some "ref2"%string)].
Proof.
  intros broadcast w'. split; [reflexivity|].
  destruct (createDataFrameTable_pairs_references Example.dtype broadcast
              Example.cluster3 "t"%string Example.batch0 Example.world0
              eq_refl) as (registrations & Hcalls & Hrev & _).
  exists registrations. split; [exact Hcalls|exact Hrev].
Defined.

(** ** The contexts of a new cluster *)

Section Contexts.

Variable DataType : Type.
Variable numDevices : nat.

(** X7. [SQLCluster.init] asks every worker it created, once, to create its
    context, in the order of [_workers], and gives all of them the same list
    of endpoints: one per worker, in ascending order of the ids, each with
    the common [ip] and the port [port + id].  The ports are pairwise
    distinct, and the token counter is not touched. *)
Theorem init_contexts (options : ClusterProps) (w : World DataType) :
  let c := fst (fst (init numDevices options w)) in
  let w' := snd (init numDevices options w) in
  let base := match id options with Some i => i | None => 0%Z end in
  let ip' := match ip options with Some s => s | None => "0.0.0.0"%string end in
  let port' := match port options with Some p => p | None => 4000%Z end in
  let info :=
    map (fun i => {| ucp_id := base + Z.of_nat i;
                     ucp_ip := ip';
                     ucp_port := port' + (base + Z.of_nat i) |})
        (seq 0 (length (_workers c))) in
  calls w'
  = calls w ++ map (fun worker => WorkerCreateContext worker ip' port' info)
                   (_workers c) /\
  NoDup (map ucp_port info) /\
  ctxToken w' = ctxToken w.
Proof.
  intros c w' base ip' port' info.
  assert (Hc : c = new_SQLCluster base
                     (Nat.min (match numWorkers options with
                               | Some n => n
                               | None => numDevices
                               end) numDevices))
    by apply init_cluster.
  assert (Hn : length (_workers c)
               = Nat.min (match numWorkers options with
                          | Some n => n
                          | None => numDevices
                          end) numDevices).
  { rewrite Hc. simpl. now rewrite length_rev, length_map, length_seq. }
  assert (Hw : w'
               = {| ctxToken := ctxToken w;
                    calls := calls w ++
                             map (fun worker =>
                                    WorkerCreateContext worker ip' port' info)
                                 (_workers c) |}).
  { subst w'. unfold init. rewrite bind_eq_pair. unfold _createContexts.
    rewrite bind_ret_snd, forEach_call. cbn [snd]. fold base ip' port'.
    rewrite <- Hc. f_equal. f_equal. apply map_ext. intros worker. f_equal.
    subst info. rewrite Hn, Hc.
    pose proof (new_SQLCluster_ids base
                  (Nat.min (match numWorkers options with
                            | Some n => n
                            | None => numDevices
                            end) numDevices)) as Hids.
    rewrite <- (map_map worker_id
                  (fun i => {| ucp_id := i; ucp_ip := ip';
                               ucp_port := port' + i |})), Hids.
    now rewrite map_map. }
  rewrite Hw. split; [reflexivity|split; [|reflexivity]].
  subst info. rewrite map_map. cbn [ucp_port].
  apply Injective_map_NoDup; [|apply seq_NoDup].
  intros i j Hij. lia.
Qed.

End Contexts.

(** ** A cluster without workers *)

Section Killed.

Variables ArrowType DataType : Type.
Variable arrowToCUDFType : option ArrowType -> DataType.
Variable parseSchema : list string -> FileType -> ParsedSchema ArrowType.
Variable explain : string -> bool -> string.
Variable broadcast : Z -> DataFrame DataType -> list string.

Lemma fan_out_no_workers (c : SQLCluster) (op : FanOut DataType)
    (w : World DataType) :
  _workers c = [] ->
  fst (fan_out arrowToCUDFType parseSchema broadcast c op w)
  = {| all_promises := []; all_result := Some (JS.Resolved tt) |} /\
  exists more,
    snd (fan_out arrowToCUDFType parseSchema broadcast c op w)
    = {| ctxToken := ctxToken w; calls := calls w ++ more |} /\
    Forall (fun call => call_worker call = None) more.
Proof.
  intros Hnone. destruct w as [t cs].
  destruct op as [tableName input|fileType tableName filePaths|tableName];
    simpl.
  - unfold createDataFrameTable, bind, get_ctxToken, set_ctxToken, call, ret.
    rewrite Hnone. simpl. rewrite Z.add_0_r, Z.sub_0_r.
    split; [reflexivity|]. eexists. split; [reflexivity|].
    now repeat constructor.
  - rewrite createFileTable_eq. unfold _createFileTable, bind, ret.
    rewrite Hnone. simpl.
    split; [reflexivity|]. exists []. rewrite app_nil_r. now split.
  - unfold dropTable, bind, ret. rewrite Hnone. simpl.
    split; [reflexivity|]. exists []. rewrite app_nil_r. now split.
Qed.

(** X8. After [kill] the cluster takes every operation without an error and
    without reaching a worker.  A table operation is fulfilled at once and a
    query returns at once without a batch.  The only calls made are those on
    the coordinator's own context ([explain], [broadcast]); a query whose
    plan is not statically empty still takes a token. *)
Theorem killed_cluster_reaches_no_worker (c : SQLCluster)
    (w0 w : World DataType) :
  let killed := fst (kill c w0) in
  (forall op evs,
     fst (awaited arrowToCUDFType parseSchema broadcast killed op evs w)
     = Some (JS.Resolved tt) /\
     exists more,
       snd (awaited arrowToCUDFType parseSchema broadcast killed op evs w)
       = {| ctxToken := ctxToken w; calls := calls w ++ more |} /\
       Forall (fun call => call_worker call = None) more) /\
  (forall query evs,
     sql_run explain killed query evs w
     = ((GDone, [Return]),
        {| ctxToken :=
             if JS.includes "LogicalValues(tuples=[[]])" (explain query false)
             then ctxToken w else ctxToken w + 1;
           calls := calls w ++ [ContextExplain query false] |})).
Proof.
  intros killed.
  assert (Hnone : _workers killed = []).
  { subst killed. unfold kill, bind. now destruct (forEach _ _ _). }
  split.
  - intros op evs.
    destruct (fan_out_no_workers killed op w Hnone)
      as (Hst & more & Hw & Hall).
    unfold awaited, bind, ret.
    destruct (fan_out arrowToCUDFType parseSchema broadcast killed op w)
      as [st w'] eqn:E.
    simpl in Hst, Hw. subst st w'. simpl.
    split.
    + now apply all_run_settled.
    + exists more. now split.
  - intros query evs. destruct w as [t cs].
    unfold sql_run, sql, bind, call at 1, get_ctxToken, set_ctxToken.
    rewrite Hnone. simpl.
    destruct (JS.includes _ (explain query false)); unfold ret; simpl;
      now rewrite gen_run_done.
Qed.

End Killed.

(** ** Tokens over a whole program *)

Section SessionTokens.

Variables ArrowType DataType : Type.
Variable arrowToCUDFType : option ArrowType -> DataType.
Variable parseSchema : list string -> FileType -> ParsedSchema ArrowType.
Variable explain : string -> bool -> string.
Variable broadcast : Z -> DataFrame DataType -> list string.

Local Abbreviation exec' :=
  (exec arrowToCUDFType parseSchema explain broadcast).
Local Abbreviation session' :=
  (session arrowToCUDFType parseSchema explain broadcast).

(** The calls [more] carry no token below [t]. *)
Local Abbreviation tokens_from t more :=
  (Forall (fun call : Call DataType =>
             forall token, call_token call = Some token -> (t <= token)%Z)
          more).

Lemma tokens_from_weaken (t t' : Z) (more : list (Call DataType)) :
  (t <= t')%Z -> tokens_from t' more -> tokens_from t more.
Proof.
  intros Ht H. eapply Forall_impl; [|exact H].
  intros call Hcall token Htok. specialize (Hcall token Htok). lia.
Qed.

Lemma dispatch_tokens (fileType : FileType) (tableName : string)
    (empty : DataFrame DataType) (entries : list (Worker * list string)) :
  forall w : World DataType,
    let w' := snd (forEach
                     (dispatch_chunk tableName empty
                        (fun worker chunk =>
                           call (WorkerCreateFileTable fileType tableName
                                   worker chunk)))
                     entries w) in
    (ctxToken w <= ctxToken w')%Z /\
    exists more,
      calls w' = calls w ++ more /\ tokens_from (ctxToken w + 1)%Z more.
Proof.
  induction entries as [|[worker chunk] entries IH]; intros w; cbv zeta.
  - simpl. split; [lia|]. exists []. rewrite app_nil_r. now split.
  - rewrite forEach_cons.
    destruct (IH (snd (dispatch_chunk tableName empty
                         (fun worker chunk =>
                            call (WorkerCreateFileTable fileType tableName
                                    worker chunk))
                         (worker, chunk) w)))
      as (Hmono & more & Hcalls & Htokens).
    rewrite Hcalls. rewrite dispatch_chunk_step in *.
    destruct (0 <? length chunk); cbn [calls ctxToken] in *.
    + split; [exact Hmono|]. eexists. rewrite <- app_assoc.
      split; [reflexivity|].
      constructor; [|exact Htokens].
      intros token Htok. now destruct fileType.
    + split; [etransitivity; [|exact Hmono]; lia|].
      eexists. rewrite <- app_assoc. split; [reflexivity|].
      constructor; [intros token [= <-]; lia|].
      constructor; [intros token [=]|].
      apply (tokens_from_weaken _ (ctxToken w + 1 + 1)); [lia|exact Htokens].
Qed.

(** One step: the counter does not go back, and the step's calls carry no
    token below the value the counter had. *)
Lemma exec_tokens (c : SQLCluster) (op : Op DataType) (w : World DataType) :
  (ctxToken w <= ctxToken (snd (exec' c op w)))%Z /\
  exists more,
    calls (snd (exec' c op w)) = calls w ++ more /\
    tokens_from (ctxToken w) more.
Proof.
  destruct op as [query|[tableName input|fileType tableName filePaths
                         |tableName]|]; cbn [exec snd].
  - destruct (JS.includes "LogicalValues(tuples=[[]])" (explain query false))
      eqn:Hplan.
    + unfold sql, bind, call at 1. rewrite Hplan. cbn.
      split; [lia|]. eexists. split; [reflexivity|].
      constructor; [intros token [=]|constructor].
    + rewrite sql_takes_current_token by assumption. cbn [ctxToken calls].
      split; [lia|]. eexists. split; [reflexivity|].
      constructor; [intros token [=]|].
      apply Forall_forall. intros call Hin token Htok.
      apply in_map_iff in Hin. destruct Hin as (worker & <- & _).
      injection Htok as <-. lia.
  - cbn [fan_out]. rewrite createDataFrameTable_takes_current_token.
    cbn [ctxToken calls]. split; [lia|]. eexists. split; [reflexivity|].
    constructor; [intros token [= <-]; lia|].
    apply Forall_forall. intros call Hin token Htok.
    apply in_map_iff in Hin. destruct Hin as (entry & <- & _). discriminate.
  - cbn [fan_out]. rewrite bind_eq_pair, createFileTable_eq,
      _createFileTable_world.
    destruct (dispatch_tokens fileType tableName
                (empty_table arrowToCUDFType (parseSchema filePaths fileType))
                (combine (rev (_workers c))
                         (chunk_paths (length (_workers c)) filePaths)) w)
      as (Hmono & more & Hcalls & Htokens).
    split; [exact Hmono|]. exists more. split; [exact Hcalls|].
    apply (tokens_from_weaken _ (ctxToken w + 1)); [lia|exact Htokens].
  - cbn [fan_out]. unfold dropTable. rewrite bind_ret_snd, forEach_call.
    cbn [snd ctxToken calls]. split; [lia|]. eexists. split; [reflexivity|].
    apply Forall_forall. intros call Hin token Htok.
    apply in_map_iff in Hin. destruct Hin as (worker & <- & _). discriminate.
  - unfold kill, bind. rewrite forEach_call. cbn [snd ctxToken calls ret].
    split; [lia|]. eexists. split; [reflexivity|].
    apply Forall_forall. intros call Hin token Htok.
    apply in_map_iff in Hin. destruct Hin as (worker & <- & _). discriminate.
Qed.

Lemma session_tokens (ops : list (Op DataType)) :
  forall (c : SQLCluster) (w : World DataType),
    (ctxToken w <= ctxToken (snd (session' c ops w)))%Z /\
    exists more,
      calls (snd (session' c ops w)) = calls w ++ more /\
      tokens_from (ctxToken w) more.
Proof.
  induction ops as [|op ops IH]; intros c w; cbn [session].
  - split; [cbn; lia|]. exists []. rewrite app_nil_r. now split.
  - destruct (exec_tokens c op w) as (Hmono & more & Hcalls & Htokens).
    destruct (exec' c op w) as [c1 w1]. cbn [snd] in *.
    destruct (IH c1 w1) as (Hmono' & more' & Hcalls' & Htokens').
    split; [lia|]. exists (more ++ more').
    rewrite Hcalls', Hcalls, <- app_assoc. split; [reflexivity|].
    apply Forall_app. split; [exact Htokens|].
    apply (tokens_from_weaken _ (ctxToken w1)); [lia|exact Htokens'].
Qed.


End SessionTokens.


(** ** What the gather delivers *)

Section Gather.

Variable DataType : Type.

Local Abbreviation Promises :=
  (list (Z * JS.Promise (list (DataFrame DataType)))).

Lemma first_settled_resolved (p : Z * JS.Promise (list (DataFrame DataType)))
    (ps : Promises) :
  is_resolved p = true ->
  first_settled (p :: ps)
  = Some (0, JS.Resolved (resolved_batches p)).
Proof.
  destruct p as [w [[dfs|e]|]]; unfold is_resolved, resolved_batches; simpl;
    intros H; try discriminate. reflexivity.
Qed.

Lemma gen_run_cons (st : GenState DataType) (ev : Event DataType)
    (evs : list (Event DataType)) :
  gen_run st (ev :: evs)
  = (fst (gen_run (fst (gen_step st ev)) evs),
     snd (gen_step st ev) ++ snd (gen_run (fst (gen_step st ev)) evs)).
Proof.
  cbn [gen_run]. destruct (gen_step st ev) as [st' out]. cbn [fst snd].
  now destruct (gen_run st' evs).
Qed.

Lemma drain_all_resolved (n : nat) :
  forall (ps : Promises) (buffer : list (DataFrame DataType)),
    length ps <= n ->
    Forall (fun p => is_resolved p = true) ps ->
    gen_run (GYielding buffer ps)
      (repeat Next (S (length (buffer ++ flat_map resolved_batches ps))))
    = (GDone,
       map Yield (buffer ++ flat_map resolved_batches ps) ++ [Return]).
Proof.
  induction n as [|n IH]; intros ps buffer Hlen Hall.
  - destruct ps; [|simpl in Hlen; lia].
    induction buffer as [|df rest IHbuf]; [reflexivity|].
    change (repeat Next (S (length ((df :: rest) ++ flat_map resolved_batches []))))
      with (@Next DataType
              :: repeat Next (S (length (rest ++ flat_map resolved_batches
                                                   (@nil (Z * JS.Promise (list (DataFrame DataType)))))))).
    rewrite gen_run_cons. cbn [gen_step fst snd]. now rewrite IHbuf.
  - induction buffer as [|df rest IHbuf].
    + destruct ps as [|p ps]; [reflexivity|].
      inversion Hall as [|? ? Hp Hps]; subst.
      cbn [app flat_map].
      change (repeat Next (S ?k)) with (@Next DataType :: repeat Next k).
      rewrite gen_run_cons. cbn [gen_step]. rewrite loop_eq.
      rewrite (first_settled_resolved p ps Hp). cbn [JS.splice1].
      specialize (IH ps).
      destruct (resolved_batches p) as [|df rest] eqn:Hdfs.
      * cbn [app]. specialize (IH [] ltac:(simpl in Hlen; lia) Hps).
        cbn [app] in IH.
        change (repeat Next (S ?k)) with (@Next DataType :: repeat Next k) in IH.
        rewrite gen_run_cons in IH. cbn [gen_step] in IH. exact IH.
      * specialize (IH rest ltac:(simpl in Hlen; lia) Hps).
        cbn [app length fst snd]. rewrite IH. reflexivity.
    + change (repeat Next (S (length ((df :: rest) ++ flat_map resolved_batches ps))))
        with (@Next DataType
                :: repeat Next (S (length (rest ++ flat_map resolved_batches ps)))).
      rewrite gen_run_cons. cbn [gen_step fst snd]. now rewrite IHbuf.
Qed.

(** X10. Once every remaining worker has answered with success while the
    generator is suspended at a [yield], a consumer that keeps asking is
    given the rest of the batches it was being given and then the batches
    of the remaining workers, worker by worker in the order of the promise
    array, each worker's batches in their own order, and after the last
    batch the generator returns: one request per batch and one more. *)
Theorem sql_drains_in_array_order (promises : Promises)
    (buffer : list (DataFrame DataType)) :
  Forall (fun p => is_resolved p = true) promises ->
  gen_run (GYielding buffer promises)
    (repeat Next (S (length (buffer ++ flat_map resolved_batches promises))))
  = (GDone,
     map Yield (buffer ++ flat_map resolved_batches promises) ++ [Return]).
Proof.
  apply (drain_all_resolved (length promises)). lia.
Qed.

End Gather.

Lemma sql_drains_in_array_order_witness :
  let promises :=
    [(2%Z, Some (JS.Resolved [Example.batch2]));
     (1%Z, Some (JS.Resolved []));
     (0%Z, Some (JS.Resolved [Example.batch0; Example.batch1]))] in
  Forall (fun p => is_resolved p = true) promises /\
  gen_run (GYielding [] promises) (repeat Next 4)
  = (GDone,
     [Yield Example.batch2; Yield Example.batch0; Yield Example.batch1;
      Return]).
Proof.
  intros promises.
  assert (H : Forall (fun p => is_resolved p = true) promises)
    by (repeat constructor).
  split; [exact H|].
  exact (sql_drains_in_array_order Example.dtype promises [] H).
Defined.

(** ** Nothing lost, nothing twice *)

Section Conservation.

Variable DataType : Type.

Local Abbreviation Promises :=
  (list (Z * JS.Promise (list (DataFrame DataType)))).

Local Abbreviation batches_of :=
  (@resolved_batches (DataFrame DataType)).

Lemma flat_map_splice1 {A B : Type} (f : A -> list B) (idx : nat) :
  forall (xs : list A) (x : A),
    nth_error xs idx = Some x ->
    Permutation (flat_map f xs) (f x ++ flat_map f (JS.splice1 idx xs)).
Proof.
  induction idx as [|idx IH]; intros [|y xs] x Hnth; try discriminate.
  - injection Hnth as ->. reflexivity.
  - cbn [JS.splice1 flat_map]. rewrite (IH xs x Hnth).
    apply Permutation_app_swap_app.
Qed.

Lemma splice1_map {A B : Type} (f : A -> B) (idx : nat) : forall xs : list A,
  map f (JS.splice1 idx xs) = JS.splice1 idx (map f xs).
Proof.
  induction idx as [|idx IH]; intros [|x xs]; simpl; try reflexivity.
  now rewrite IH.
Qed.

Lemma splice1_NoDup {A : Type} (idx : nat) : forall xs : list A,
  NoDup xs -> NoDup (JS.splice1 idx xs).
Proof.
  induction idx as [|idx IH]; intros [|x xs] H; simpl; try assumption.
  - now inversion H.
  - inversion H as [|? ? Hnotin Hxs]; subst. constructor; [|now apply IH].
    intros Hin. apply Hnotin. now apply splice1_In in Hin.
Qed.

Lemma settle_ids {A : Type} (wid : Z) (o : JS.Settled A)
    (ps : list (Z * JS.Promise A)) :
  map fst (settle wid o ps) = map fst ps.
Proof.
  unfold settle. rewrite map_map. apply map_ext. intros [w [r|]]; simpl;
    [reflexivity|]. now destruct (Z.eqb w wid).
Qed.

Lemma is_pending_fresh (wid : Z) (ids : list Z) :
  is_pending wid (map (fun w => (w, @None (JS.Settled (list (DataFrame DataType))))) ids)
  = existsb (Z.eqb wid) ids.
Proof.
  unfold is_pending. induction ids as [|a ids IH]; simpl; [reflexivity|].
  now rewrite IH, andb_true_r, Z.eqb_sym.
Qed.

Lemma is_pending_not_in (wid : Z) (ps : Promises) :
  ~ In wid (map fst ps) -> is_pending wid ps = false.
Proof.
  intros Hnotin. unfold is_pending. apply not_true_is_false.
  rewrite existsb_exists. intros ([w p] & Hin & H). simpl in H.
  apply andb_true_iff in H. destruct H as [Hw _]. apply Z.eqb_eq in Hw.
  subst w. apply Hnotin. now apply (in_map fst) in Hin.
Qed.

(** A fulfilled answer adds its batches once; any other answer adds
    none. *)
Lemma settle_batches (wid : Z) (o : JS.Settled (list (DataFrame DataType))) :
  forall ps : Promises,
    NoDup (map fst ps) ->
    Permutation
      (flat_map batches_of (settle wid o ps))
      (flat_map batches_of ps ++
       match o with
       | JS.Resolved dfs => if is_pending wid ps then dfs else []
       | JS.Rejected _ => []
       end).
Proof.
  induction ps as [|[w s] ps IH]; intros Hnd.
  - simpl. destruct o; reflexivity.
  - inversion Hnd as [|? ? Hnotin Hnd']; subst. specialize (IH Hnd').
    change (settle wid o ((w, s) :: ps))
      with ((match s with
             | None => if Z.eqb w wid then (w, Some o) else (w, s)
             | Some _ => (w, s)
             end) :: settle wid o ps).
    change (is_pending wid ((w, s) :: ps))
      with (Z.eqb w wid && match s with None => true | Some _ => false end
            || is_pending wid ps).
    destruct s as [r|].
    + rewrite andb_false_r. cbn [orb flat_map].
      rewrite IH. now rewrite app_assoc.
    + rewrite andb_true_r. destruct (Z.eqb_spec w wid) as [->|Hne].
      * cbn [orb flat_map]. rewrite settle_not_pending
          by now apply is_pending_not_in.
        unfold resolved_batches at 1 3. cbn [snd app].
        destruct o as [dfs|e].
        -- apply Permutation_app_comm.
        -- now rewrite app_nil_r.
      * cbn [orb flat_map]. rewrite IH. now rewrite app_assoc.
Qed.

Lemma all_pending_no_batches (ps : Promises) :
  Forall (fun p => snd p = None) ps -> flat_map batches_of ps = [].
Proof.
  induction 1 as [|[w s] ps Hs _ IH]; [reflexivity|].
  simpl in Hs. subst s. exact IH.
Qed.

(** A turn of the loop that does not throw yields or keeps every batch the
    promises hold. *)
Lemma loop_conserves (n : nat) : forall ps : Promises,
  length ps <= n ->
  NoDup (map fst ps) ->
  (forall e, fst (loop ps) <> GFailed e) ->
  NoDup (gen_ids (fst (loop ps))) /\
  Permutation (yielded (snd (loop ps)) ++ held (fst (loop ps)))
              (flat_map batches_of ps).
Proof.
  induction n as [|n IH]; intros ps Hlen Hnd Hok.
  - destruct ps; [|simpl in Hlen; lia]. split; [constructor|reflexivity].
  - rewrite loop_eq in *. destruct ps as [|p ps];
      [split; [constructor|reflexivity]|].
    destruct (first_settled (p :: ps)) as [[idx o]|] eqn:E.
    + destruct (first_settled_Some _ _ _ E) as [[w Hw] _].
      pose proof (flat_map_splice1 batches_of idx _ _ Hw) as Hperm.
      assert (Hnd' : NoDup (map fst (JS.splice1 idx (p :: ps))))
        by (rewrite splice1_map; now apply splice1_NoDup).
      destruct o as [[|df rest]|e].
      * unfold resolved_batches at 2 in Hperm. cbn [snd app] in Hperm.
        destruct (IH (JS.splice1 idx (p :: ps))) as [Hids Hkept];
          [|exact Hnd'|exact Hok|].
        { rewrite splice1_length by (now apply first_settled_lt in E).
          simpl in *. lia. }
        split; [exact Hids|]. now rewrite Hkept, Hperm.
      * unfold resolved_batches at 2 in Hperm. cbn [snd] in Hperm.
        split; [exact Hnd'|]. rewrite Hperm. reflexivity.
      * exfalso. now apply (Hok e).
    + split; [exact Hnd|].
      apply first_settled_None in E.
      rewrite all_pending_no_batches by exact E. reflexivity.
Qed.

Lemma gen_run_failed (e : JS.Error) (evs : list (Event DataType)) :
  gen_run (GFailed e) evs = (GFailed e, []).
Proof.
  induction evs as [|ev evs IH]; [reflexivity|].
  rewrite gen_run_cons. cbn [gen_step fst snd]. destruct ev; now rewrite IH.
Qed.

Lemma yielded_app (outs1 outs2 : list (Output DataType)) :
  yielded (outs1 ++ outs2) = yielded outs1 ++ yielded outs2.
Proof. apply flat_map_app. Qed.

(** One event, when the generator does not throw. *)
Lemma gen_step_conserves (st : GenState DataType) (ev : Event DataType) :
  NoDup (gen_ids st) ->
  (forall e, fst (gen_step st ev) <> GFailed e) ->
  NoDup (gen_ids (fst (gen_step st ev))) /\
  Permutation (yielded (snd (gen_step st ev)) ++ held (fst (gen_step st ev)))
              (held st ++ arrivals st [ev]).
Proof.
  intros Hnd Hok. cbn [arrivals]. rewrite app_nil_r.
  destruct st as [pending|buffer ps| |e0].
  - destruct ev as [|wid o]; cbn [gen_step awaits] in *.
    + split; [exact Hnd|]. reflexivity.
    + destruct (existsb (Z.eqb wid) pending) eqn:Hawait.
      * set (fresh := map (fun w => (w, None)) pending) in *.
        assert (Hfresh : map fst fresh = pending).
        { subst fresh. rewrite map_map. apply map_id. }
        assert (Hnd0 : NoDup (map fst fresh)) by (rewrite Hfresh; exact Hnd).
        assert (Hnd' : NoDup (map fst (settle wid o fresh))).
        { rewrite settle_ids. exact Hnd0. }
        destruct (loop_conserves (length (settle wid o fresh))
                    (settle wid o fresh) (le_n _) Hnd' Hok)
          as [Hids Hkept].
        split; [exact Hids|]. rewrite Hkept.
        rewrite settle_batches by exact Hnd0.
        subst fresh. rewrite is_pending_fresh, Hawait.
        rewrite all_pending_no_batches.
        -- now destruct o.
        -- apply Forall_forall. intros p Hin. apply in_map_iff in Hin.
           now destruct Hin as (w & <- & _).
      * split; [exact Hnd|]. cbn [fst snd held yielded flat_map app].
        now destruct o.
  - destruct ev as [|wid o].
    + destruct buffer as [|df rest]; cbn [gen_step] in *.
      * destruct (loop_conserves (length ps) ps (le_n _) Hnd Hok)
          as [Hids Hkept].
        split; [exact Hids|]. cbn [held app]. now rewrite app_nil_r.
      * split; [exact Hnd|]. cbn [fst snd held yielded flat_map app].
        now rewrite app_nil_r.
    + assert (Hstep : gen_step (GYielding buffer ps) (Settle wid o)
                      = (GYielding buffer (settle wid o ps), []))
        by now destruct buffer.
      rewrite Hstep. cbn [fst snd held yielded flat_map app gen_ids awaits].
      split; [now rewrite settle_ids|].
      rewrite settle_batches by exact Hnd.
      rewrite <- app_assoc. apply Permutation_app_head.
      apply Permutation_app_head. now destruct o.
  - destruct ev as [|wid o]; [|destruct o];
      (split; [exact (NoDup_nil _)|reflexivity]).
  - exfalso. apply (Hok e0). now destruct ev.
Qed.

Lemma gen_run_conserves (evs : list (Event DataType)) :
  forall st : GenState DataType,
    NoDup (gen_ids st) ->
    (forall e, fst (gen_run st evs) <> GFailed e) ->
    Permutation (yielded (snd (gen_run st evs)) ++ held (fst (gen_run st evs)))
                (held st ++ arrivals st evs).
Proof.
  induction evs as [|ev evs IH]; intros st Hnd Hok.
  - cbn. now rewrite app_nil_r.
  - rewrite gen_run_cons in *. cbn [fst snd] in *.
    assert (Hstep : forall e, fst (gen_step st ev) <> GFailed e).
    { intros e He. rewrite He, gen_run_failed in Hok. now apply (Hok e). }
    destruct (gen_step_conserves st ev Hnd Hstep) as [Hnd' Hkept].
    specialize (IH _ Hnd' Hok).
    rewrite yielded_app, <- app_assoc, IH.
    rewrite app_assoc, Hkept.
    cbn [arrivals]. rewrite !app_nil_r, <- !app_assoc. reflexivity.
Qed.


End Conservation.


(** ** Objects to which a key is assigned again *)

Section Reassigned.

Context {V : Type}.

Lemma has_spec (key : string) (o : JS.obj V) :
  JS.has key o = true <-> In key (JS.keys o).
Proof.
  unfold JS.has, JS.keys. rewrite existsb_exists, in_map_iff. split.
  - intros (kv & Hin & Heq). apply String.eqb_eq in Heq. now exists kv.
  - intros (kv & Heq & Hin). exists kv. split; [assumption|].
    now apply String.eqb_eq.
Qed.

Lemma replace_keys (key : string) (v : V) (o : JS.obj V) :
  JS.keys (JS.replace key v o) = JS.keys o.
Proof.
  unfold JS.keys, JS.replace. rewrite map_map. apply map_ext.
  intros [k x]. simpl. now destruct (String.eqb_spec k key).
Qed.

Lemma insert_index_perm (n : N) (key : string) (v : V) (o : JS.obj V) :
  Permutation (JS.insert_index n key v o) ((key, v) :: o).
Proof.
  induction o as [|[k x] o IH]; simpl; [reflexivity|].
  destruct (JS.array_index k) as [m|]; [|reflexivity].
  destruct (m <? n)%N; [|reflexivity].
  rewrite IH. apply perm_swap.
Qed.

Lemma set_new (key : string) (v : V) (o : JS.obj V) :
  JS.has key o = false -> Permutation (JS.set key v o) ((key, v) :: o).
Proof.
  intros H. unfold JS.set. rewrite H.
  destruct (JS.array_index key) as [n|]; [apply insert_index_perm|].
  symmetry. apply Permutation_cons_append.
Qed.

Lemma set_keys_In (key : string) (v : V) (o : JS.obj V) (k : string) :
  In k (JS.keys (JS.set key v o)) <-> k = key \/ In k (JS.keys o).
Proof.
  destruct (JS.has key o) eqn:H.
  - unfold JS.set. rewrite H, replace_keys. apply has_spec in H.
    split; [tauto|]. now intros [->|Hin].
  - pose proof (Permutation_map fst (set_new key v o H)) as Hperm.
    unfold JS.keys. split; intros Hin.
    + apply (Permutation_in _ Hperm) in Hin. simpl in Hin.
      destruct Hin as [<-|Hin]; tauto.
    + apply (Permutation_in _ (Permutation_sym Hperm)). simpl.
      destruct Hin as [->|Hin]; tauto.
Qed.

Lemma set_keys_NoDup (key : string) (v : V) (o : JS.obj V) :
  NoDup (JS.keys o) -> NoDup (JS.keys (JS.set key v o)).
Proof.
  intros Hnd. destruct (JS.has key o) eqn:H.
  - unfold JS.set. now rewrite H, replace_keys.
  - pose proof (Permutation_map fst (set_new key v o H)) as Hperm.
    apply (Permutation_NoDup (Permutation_sym Hperm)). simpl.
    constructor; [|exact Hnd].
    intros Hin. apply has_spec in Hin. unfold JS.keys in *. congruence.
Qed.

Lemma set_In_same (key : string) (v : V) (o : JS.obj V) :
  In (key, v) (JS.set key v o).
Proof.
  destruct (JS.has key o) eqn:H.
  - unfold JS.set. rewrite H. unfold JS.has in H.
    apply existsb_exists in H. destruct H as (kv & Hin & Heq).
    unfold JS.replace. apply in_map_iff. exists kv. now rewrite Heq.
  - apply (Permutation_in _ (Permutation_sym (set_new key v o H))).
    now left.
Qed.

Lemma set_In_other (key : string) (v : V) (o : JS.obj V) (k : string)
    (x : V) :
  k <> key -> In (k, x) o -> In (k, x) (JS.set key v o).
Proof.
  intros Hne Hin. destruct (JS.has key o) eqn:H.
  - unfold JS.set. rewrite H. unfold JS.replace. apply in_map_iff.
    exists (k, x). split; [|assumption]. simpl.
    now destruct (String.eqb_spec k key).
  - apply (Permutation_in _ (Permutation_sym (set_new key v o H))).
    now right.
Qed.

Section Fold.

Context {E : Type}.
Variable key : E -> string.
Variable val : E -> V.

Local Abbreviation assign_all :=
  (fold_left (fun xs e => JS.set (key e) (val e) xs)).

Lemma fold_set_keys_In (entries : list E) : forall (acc : JS.obj V) k,
  In k (JS.keys (assign_all entries acc))
  <-> In k (JS.keys acc) \/ In k (map key entries).
Proof.
  induction entries as [|e entries IH]; intros acc k; simpl.
  - tauto.
  - rewrite IH, set_keys_In. intuition congruence.
Qed.

Lemma fold_set_NoDup (entries : list E) : forall acc : JS.obj V,
  NoDup (JS.keys acc) -> NoDup (JS.keys (assign_all entries acc)).
Proof.
  induction entries as [|e entries IH]; intros acc H; simpl; [assumption|].
  now apply IH, set_keys_NoDup.
Qed.

Lemma fold_set_keeps (entries : list E) : forall (acc : JS.obj V) k x,
  In (k, x) acc ->
  Forall (fun e => key e <> k) entries ->
  In (k, x) (assign_all entries acc).
Proof.
  induction entries as [|e entries IH]; intros acc k x Hin Hne; simpl;
    [assumption|].
  inversion Hne as [|? ? He Hrest]; subst.
  apply IH; [|assumption]. apply set_In_other; [congruence|assumption].
Qed.

(** The last assignment to a key is the one that stays. *)
Lemma fold_set_last (before : list E) (e : E) (after : list E)
    (acc : JS.obj V) :
  Forall (fun e' => key e' <> key e) after ->
  In (key e, val e) (assign_all (before ++ e :: after) acc).
Proof.
  intros Hne. rewrite fold_left_app. simpl.
  apply fold_set_keeps; [apply set_In_same|assumption].
Qed.

Lemma fold_set_distinct (entries : list E) (e : E) (acc : JS.obj V) :
  NoDup (map key entries) ->
  In e entries ->
  In (key e, val e) (assign_all entries acc).
Proof.
  intros Hnd Hin. apply in_split in Hin. destruct Hin as (l1 & l2 & ->).
  apply fold_set_last. rewrite map_app in Hnd. simpl in Hnd.
  apply NoDup_remove_2 in Hnd. apply Forall_forall. intros e' He' Heq.
  apply Hnd, in_or_app. right. rewrite <- Heq. now apply in_map.
Qed.

End Fold.

End Reassigned.

Lemma indexed_snoc {A : Type} (xs : list A) (x : A) :
  JS.indexed (xs ++ [x]) = JS.indexed xs ++ [(x, length xs)].
Proof.
  unfold JS.indexed. rewrite length_app, Nat.add_1_r, seq_S.
  rewrite combine_app by now rewrite length_seq. reflexivity.
Qed.

(** Assigning the entries of a list by name: the entry at the last position
    of a name is the one the object holds under it. *)
Lemma assign_indexed_last {V : Type} (f : nat -> V) (xs : list string) :
  forall i name,
    nth_error xs i = Some name ->
    (forall j, i < j -> nth_error xs j <> Some name) ->
    In (name, f i)
       (fold_left (fun o e => JS.set (fst e) (f (snd e)) o)
                  (JS.indexed xs) []).
Proof.
  induction xs as [|n xs IH] using rev_ind; intros i name Hi Hlast.
  - now destruct i.
  - rewrite indexed_snoc, fold_left_app. cbn [fold_left fst snd].
    assert (Hlt : i < length (xs ++ [n]))
      by (apply nth_error_Some; now rewrite Hi).
    rewrite length_app in Hlt. simpl in Hlt.
    destruct (Nat.eq_dec i (length xs)) as [->|Hne].
    + rewrite nth_error_app2, Nat.sub_diag in Hi by lia.
      injection Hi as ->. apply set_In_same.
    + assert (Hi' : nth_error xs i = Some name)
        by (rewrite nth_error_app1 in Hi by lia; exact Hi).
      apply set_In_other.
      * intros ->. apply (Hlast (length xs)); [lia|].
        now rewrite nth_error_app2, Nat.sub_diag by lia.
      * apply IH; [exact Hi'|]. intros j Hj Hnth.
        apply (Hlast j Hj). rewrite nth_error_app1; [exact Hnth|].
        apply nth_error_Some. now rewrite Hnth.
Qed.

(** ** The empty table of any schema *)

Section AnySchema.

Variables ArrowType DataType : Type.
Variable arrowToCUDFType : option ArrowType -> DataType.


End AnySchema.


(** ** Workers that all succeed *)

Section AllSucceed.

Local Abbreviation answered :=
  (fold_left (fun (ps : list (Z * JS.Promise unit)) ev =>
                settle (fst ev) (snd ev) ps)).

Local Abbreviation not_rejected :=
  (fun p : Z * JS.Promise unit => forall e, snd p <> Some (JS.Rejected e)).

Lemma all_promises_run (evs : list (Z * JS.Settled unit)) : forall st,
  all_promises (all_run st evs) = answered evs (all_promises st).
Proof.
  unfold all_run. induction evs as [|[wid o] evs IH]; intros st;
    [reflexivity|].
  simpl. now rewrite IH.
Qed.

(** A success settles the promise it is for and leaves the others. *)
Lemma settle_success (wid : Z) (p : Z * JS.Promise unit) :
  not_rejected p ->
  let p' := match snd p with
            | None => if Z.eqb (fst p) wid
                      then (fst p, Some (JS.Resolved tt)) else p
            | Some _ => p
            end in
  fst p' = fst p /\ not_rejected p' /\
  (is_resolved p' = true <-> is_resolved p = true \/ fst p = wid).
Proof.
  destruct p as [w [[v|e]|]]; unfold is_resolved; simpl; intros Hp.
  - repeat split; auto.
  - now destruct (Hp e).
  - destruct (Z.eqb_spec w wid) as [->|Hne]; simpl.
    + repeat split; auto. intros e. discriminate.
    + repeat split; auto. intros [H|H]; [discriminate|contradiction].
Qed.

Lemma answered_resolved (evs : list (Z * JS.Settled unit)) :
  forall ps : list (Z * JS.Promise unit),
    Forall (fun ev => snd ev = JS.Resolved tt) evs ->
    Forall not_rejected ps ->
    Forall not_rejected (answered evs ps) /\
    (Forall (fun p => is_resolved p = true) (answered evs ps)
     <-> forall p, In p ps ->
           is_resolved p = true \/ In (fst p) (map fst evs)).
Proof.
  induction evs as [|[wid o] evs IH]; intros ps Hevs Hps.
  - simpl. split; [exact Hps|]. rewrite Forall_forall.
    split; intros H p Hin; [left; now apply H|].
    now destruct (H p Hin).
  - inversion Hevs as [|? ? Ho Hevs']; subst. simpl in Ho. subst o.
    cbn [fold_left fst snd map].
    assert (Hps' : Forall not_rejected (settle wid (JS.Resolved tt) ps)).
    { unfold settle. rewrite Forall_map. eapply Forall_impl; [|exact Hps].
      intros p Hp. now apply (settle_success wid p Hp). }
    destruct (IH _ Hevs' Hps') as [Hnone Hiff].
    split; [exact Hnone|]. rewrite Hiff. rewrite Forall_forall in Hps.
    unfold settle. split.
    + intros H p Hin.
      destruct (settle_success wid p (Hps p Hin)) as (Hfst & _ & Hres).
      cbv zeta in Hfst, Hres.
      destruct (H _ (in_map _ _ _ Hin)) as [H'|H'].
      * destruct (proj1 Hres H') as [Hp|Hp]; [now left|].
        right. left. now symmetry.
      * right. right. rewrite <- Hfst. exact H'.
    + intros H p' Hin'. apply in_map_iff in Hin'.
      destruct Hin' as (p & <- & Hin).
      destruct (settle_success wid p (Hps p Hin)) as (Hfst & _ & Hres).
      cbv zeta in Hfst, Hres.
      destruct (H p Hin) as [H'|[H'|H']].
      * left. apply (proj2 Hres). now left.
      * left. apply (proj2 Hres). right. now symmetry.
      * right. pose proof Hfst as Hfst'. rewrite <- Hfst' in H'. exact H'.
Qed.

Lemma promise_all_pending (workers : list Worker) :
  Forall (fun p => snd p = None) (all_promises (promise_all workers)).
Proof.
  unfold promise_all. cbn [all_promises]. rewrite Forall_map.
  now apply Forall_forall.
Qed.

Variables ArrowType DataType : Type.
Variable arrowToCUDFType : option ArrowType -> DataType.
Variable parseSchema : list string -> FileType -> ParsedSchema ArrowType.
Variable broadcast : Z -> DataFrame DataType -> list string.

Local Abbreviation fan_out' := (fan_out arrowToCUDFType parseSchema broadcast).
Local Abbreviation awaited' := (awaited arrowToCUDFType parseSchema broadcast).

(** X13. When no worker fails, [createDataFrameTable], the file-table
    creations and [dropTable] succeed exactly when every worker of the
    cluster has answered, in whatever order the answers arrive and however
    often a worker answers; until then the operation is neither fulfilled
    nor rejected. *)
Theorem awaited_succeeds_once_all_answered (c : SQLCluster)
    (op : FanOut DataType) (evs : list (Z * JS.Settled unit))
    (w : World DataType) :
  Forall (fun ev => snd ev = JS.Resolved tt) evs ->
  (fst (awaited' c op evs w) = Some (JS.Resolved tt)
   <-> forall worker, In worker (_workers c) ->
         In (worker_id worker) (map fst evs)) /\
  (fst (awaited' c op evs w) <> Some (JS.Resolved tt) ->
   fst (awaited' c op evs w) = None).
Proof.
  intros Hevs.
  set (st := fst (fan_out' c op w)).
  assert (Hres : fst (awaited' c op evs w) = all_result (all_run st evs)).
  { unfold awaited, bind, ret. subst st. now destruct (fan_out' c op w). }
  rewrite Hres.
  pose proof (all_run_inv evs st (fan_out_inv _ _ _ _ _ c op w)) as Hinv.
  assert (Hst : exists workers,
             st = promise_all workers /\
             forall worker, In worker workers <-> In worker (_workers c)).
  { destruct (fan_out_promise_all _ _ arrowToCUDFType parseSchema broadcast
                c op w) as [H|H].
    - exists (_workers c). now split.
    - exists (rev (_workers c)). split; [exact H|].
      intros worker. symmetry. apply in_rev. }
  destruct Hst as (workers & Hst & Hsame).
  assert (Hstart : Forall not_rejected (all_promises st)).
  { rewrite Hst. eapply Forall_impl; [|apply promise_all_pending].
    intros p Hp e He. pose proof (eq_trans (eq_sym Hp) He) as Habs.
    discriminate Habs. }
  destruct (answered_resolved evs _ Hevs Hstart) as [Hnone Hiff].
  rewrite <- all_promises_run in Hnone, Hiff.
  split.
  - rewrite (all_inv_resolved _ Hinv), Hiff, Hst.
    unfold promise_all. cbn [all_promises]. split.
    + intros H worker Hin. apply Hsame in Hin.
      destruct (H (worker_id worker, None) (in_map _ _ _ Hin)) as [H'|H'];
        [discriminate|exact H'].
    + intros H p Hin. apply in_map_iff in Hin.
      destruct Hin as (worker & <- & Hin). right. simpl.
      now apply H, Hsame.
  - intros Hnot. unfold all_inv in Hinv.
    destruct (all_result (all_run st evs)) as [[[]|e]|];
      [now destruct Hnot| |reflexivity].
    exfalso. apply Exists_exists in Hinv. destruct Hinv as (p & Hin & Hp).
    rewrite Forall_forall in Hnone. exact (Hnone p Hin e Hp).
Qed.

End AllSucceed.

(** The remote worker answers before the local one, and twice: [dropTable]
    is done after the local worker's answer. *)
Lemma awaited_succeeds_once_all_answered_witness :
  let evs := [(1%Z, JS.Resolved tt); (1%Z, JS.Resolved tt);
              (0%Z, JS.Resolved tt)] in
  Forall (fun ev => snd ev = JS.Resolved tt) evs /\
  fst (awaited Example.arrowToCUDFType
         (Example.parseSchema Example.schema_ab) Example.broadcast
         Example.cluster2 (DropTable "t") evs Example.world0)
  = Some (JS.Resolved tt).
Proof.
  intros evs.
  assert (Hevs : Forall (fun ev => snd ev = JS.Resolved tt) evs)
    by (repeat constructor).
  split; [exact Hevs|].
  apply (awaited_succeeds_once_all_answered _ _ Example.arrowToCUDFType
           (Example.parseSchema Example.schema_ab) Example.broadcast
           Example.cluster2 (DropTable "t") evs Example.world0 Hevs).
  intros worker Hin. simpl in Hin.
  destruct Hin as [<-|[<-|[]]]; simpl; auto.
Defined.

(** ** The columns of a join *)

Section JoinColumns.

Lemma append_empty_r (s : string) : (s ++ EmptyString)%string = s.
Proof. induction s as [|c s IH]; simpl; [|rewrite IH]; reflexivity. Qed.

Lemma newName_no_suffix (on rhsNames : list string) (name : string) :
  newName on rhsNames EmptyString name = name.
Proof.
  unfold newName. destruct (existsb _ on); [reflexivity|].
  destruct (existsb _ rhsNames); [apply append_empty_r|reflexivity].
Qed.

Lemma fold_left_ext_eq {A B : Type} (f g : A -> B -> A) (xs : list B) :
  (forall a b, f a b = g a b) ->
  forall a, fold_left f xs a = fold_left g xs a.
Proof.
  intros H. induction xs as [|x xs IH]; intros a; simpl; [reflexivity|].
  now rewrite H, IH.
Qed.

Lemma map_pair_id {A B : Type} (xs : list (A * B)) :
  map (fun e => (fst e, snd e)) xs = xs.
Proof.
  induction xs as [|[a b] xs IH]; simpl; [|rewrite IH]; reflexivity.
Qed.

(** Assigning keys that are new and pairwise distinct adds every entry. *)
Lemma fold_set_perm {V E : Type} (key : E -> string) (val : E -> V)
    (entries : list E) : forall acc : JS.obj V,
  NoDup (JS.keys acc ++ map key entries) ->
  Permutation (fold_left (fun xs e => JS.set (key e) (val e) xs) entries acc)
              (acc ++ map (fun e => (key e, val e)) entries).
Proof.
  induction entries as [|e entries IH]; intros acc Hnd; simpl.
  - now rewrite app_nil_r.
  - simpl in Hnd.
    assert (Hnew : JS.has (key e) acc = false).
    { apply has_false. intros Hin. apply NoDup_remove_2 in Hnd.
      apply Hnd, in_or_app. now left. }
    pose proof (set_new (key e) (val e) acc Hnew) as Hset.
    rewrite IH.
    + rewrite Hset. simpl. apply Permutation_middle.
    + unfold JS.keys. rewrite (Permutation_map fst Hset). simpl.
      apply (Permutation_NoDup (Permutation_sym (Permutation_middle _ _ _))).
      exact Hnd.
Qed.

Lemma spread_perm {V : Type} (a b : JS.obj V) :
  NoDup (JS.keys a ++ JS.keys b) ->
  Permutation (spread a b) (a ++ b).
Proof.
  intros Hnd. unfold spread.
  assert (Ha : Permutation
                 (fold_left (fun o e => JS.set (fst e) (snd e) o) a []) a).
  { rewrite (fold_set_perm fst snd a []).
    - simpl. now rewrite map_pair_id.
    - simpl. now apply NoDup_app_remove_r in Hnd. }
  rewrite (fold_set_perm fst snd b).
  - rewrite map_pair_id. now apply Permutation_app_tail.
  - unfold JS.keys in *. now rewrite (Permutation_map fst Ha).
Qed.

Lemma spread_prefers_right {V : Type} (a b : JS.obj V) :
  NoDup (JS.keys b) ->
  forall e, In e b -> In e (spread a b).
Proof.
  intros Hnd [k x] Hin. unfold spread.
  exact (fold_set_distinct fst snd b (k, x) _ Hnd Hin).
Qed.

Lemma spread_keeps_left {V : Type} (a b : JS.obj V) :
  NoDup (JS.keys a) ->
  forall e, In e a -> ~ In (fst e) (JS.keys b) -> In e (spread a b).
Proof.
  intros Hnd [k x] Hin Hnot. unfold spread.
  apply fold_set_keeps.
  - exact (fold_set_distinct fst snd a (k, x) _ Hnd Hin).
  - apply Forall_forall. intros e He Heq. apply Hnot. simpl.
    rewrite <- Heq. now apply in_map.
Qed.

Lemma spread_keys {V : Type} (a b : JS.obj V) (k : string) :
  In k (JS.keys (spread a b)) <-> In k (JS.keys a) \/ In k (JS.keys b).
Proof.
  unfold spread. rewrite !(fold_set_keys_In fst snd). simpl.
  unfold JS.keys. tauto.
Qed.

Variable DataType : Type.

Lemma getColumns_keys (on : list string) (lhs : DataFrame DataType)
    (rhsNames : list string) (suffix : string) (k : string) :
  In k (JS.keys (getColumns on lhs rhsNames suffix))
  <-> In k (map (newName on rhsNames suffix) (df_names lhs)).
Proof.
  unfold getColumns.
  rewrite (fold_set_keys_In (fun e => newName on rhsNames suffix (fst e)) snd).
  unfold df_names, JS.keys. rewrite map_map. simpl. tauto.
Qed.

Lemma getColumns_NoDup (on : list string) (lhs : DataFrame DataType)
    (rhsNames : list string) (suffix : string) :
  NoDup (JS.keys (getColumns on lhs rhsNames suffix)).
Proof.
  unfold getColumns.
  apply (fold_set_NoDup (fun e => newName on rhsNames suffix (fst e)) snd).
  constructor.
Qed.

Lemma getColumns_In (on : list string) (lhs : DataFrame DataType)
    (rhsNames : list string) (suffix : string) :
  NoDup (map (newName on rhsNames suffix) (df_names lhs)) ->
  forall name col,
    In (name, col) (df_columns lhs) ->
    In (newName on rhsNames suffix name, col)
       (getColumns on lhs rhsNames suffix).
Proof.
  intros Hnd name col Hin. unfold getColumns.
  apply (fold_set_distinct (fun e => newName on rhsNames suffix (fst e)) snd
           (df_columns lhs) (name, col) []); [|exact Hin].
  unfold df_names, JS.keys in Hnd. now rewrite map_map in Hnd.
Qed.

Lemma getColumns_perm (on : list string) (lhs : DataFrame DataType)
    (rhsNames : list string) (suffix : string) :
  NoDup (map (newName on rhsNames suffix) (df_names lhs)) ->
  Permutation (getColumns on lhs rhsNames suffix)
              (map (fun e => (newName on rhsNames suffix (fst e), snd e))
                   (df_columns lhs)).
Proof.
  intros Hnd. unfold getColumns.
  rewrite (fold_set_perm (fun e => newName on rhsNames suffix (fst e)) snd);
    [reflexivity|].
  unfold df_names, JS.keys in Hnd. simpl. now rewrite map_map in Hnd.
Qed.

(** X14. Joining without suffixes prefers the left side: every column of
    the left frame is in the merged result under its own name, a column of
    the right frame is there unless the left frame has a column of that
    name, and there are no other names. *)
Theorem mergeResults_no_suffix_prefers_lhs (lhs rhs : DataFrame DataType)
    (on : list string) :
  NoDup (df_names lhs) ->
  NoDup (df_names rhs) ->
  let result := mergeResults lhs rhs on EmptyString EmptyString in
  (forall name col, In (name, col) (df_columns lhs) -> In (name, col) result) /\
  (forall name col,
     In (name, col) (df_columns rhs) ->
     ~ In name (df_names lhs) ->
     In (name, col) result) /\
  (forall name,
     In name (JS.keys result)
     <-> In name (df_names lhs) \/ In name (df_names rhs)).
Proof.
  intros Hl Hr result.
  assert (Hid : forall (names : list string) (xs : list string),
             map (newName on names EmptyString) xs = xs).
  { intros names xs. rewrite <- (map_id xs) at 2. apply map_ext.
    intros name. apply newName_no_suffix. }
  assert (Hlhs : forall name col,
             In (name, col) (df_columns lhs) ->
             In (name, col) (getColumns on lhs (df_names rhs) EmptyString)).
  { intros name col Hin.
    rewrite <- (newName_no_suffix on (df_names rhs) name) at 1.
    apply getColumns_In; [now rewrite Hid|exact Hin]. }
  assert (Hrhs : forall name col,
             In (name, col) (df_columns rhs) ->
             In (name, col) (getColumns on rhs (df_names lhs) EmptyString)).
  { intros name col Hin.
    rewrite <- (newName_no_suffix on (df_names lhs) name) at 1.
    apply getColumns_In; [now rewrite Hid|exact Hin]. }
  subst result. unfold mergeResults. cbn [String.eqb andb].
  split; [|split].
  - intros name col Hin.
    apply spread_prefers_right; [apply getColumns_NoDup|now apply Hlhs].
  - intros name col Hin Hnot.
    apply spread_keeps_left;
      [apply getColumns_NoDup|now apply Hrhs|].
    simpl. rewrite getColumns_keys, Hid. exact Hnot.
  - intros name. rewrite spread_keys, !getColumns_keys, !Hid. tauto.
Qed.



End JoinColumns.

(** Both frames have a column [score]: the merged result has the one of
    the left frame, and the column [city] of the right frame. *)
Lemma mergeResults_no_suffix_prefers_lhs_witness :
  let result :=
    mergeResults Example.people Example.games ["id"%string]
                 EmptyString EmptyString in
  NoDup (df_names Example.people) /\
  NoDup (df_names Example.games) /\
  In ("score"%string, Example.column Example.Float64 3) result /\
  In ("city"%string, Example.column Example.Utf8String 2) result.
Proof.
  intros result.
  assert (Hl : NoDup (df_names Example.people)).
  { vm_compute. repeat constructor; simpl; intuition discriminate. }
  assert (Hr : NoDup (df_names Example.games)).
  { vm_compute. repeat constructor; simpl; intuition discriminate. }
  destruct (mergeResults_no_suffix_prefers_lhs Example.dtype
              Example.people Example.games ["id"%string] Hl Hr)
    as (Hlhs & Hrhs & _).
  split; [exact Hl|split; [exact Hr|split]].
  - apply Hlhs. vm_compute. tauto.
  - apply Hrhs; [vm_compute; tauto|].
    vm_compute. intuition discriminate.
Defined.



(** ** Queries whose workers all succeed *)

Section Completion.

Variable DataType : Type.
Variable explain : string -> bool -> string.

Local Abbreviation Promises :=
  (list (Z * JS.Promise (list (DataFrame DataType)))).

Local Abbreviation unrejected :=
  (fun p : Z * JS.Promise (list (DataFrame DataType)) =>
     forall e, snd p <> Some (JS.Rejected e)).

Local Abbreviation success :=
  (fun ev : Event DataType => forall wid e, ev <> Settle wid (JS.Rejected e)).

(** A generator that has seen no failure: it waits only when there is a
    worker to wait for, and holds no rejected promise. *)
Local Abbreviation healthy st :=
  (match st with
   | GRacing pending => pending <> []
   | GYielding _ promises => Forall unrejected promises
   | GDone => True
   | GFailed _ => False
   end).

Lemma splice1_Forall_keep {A : Type} (P : A -> Prop) (idx : nat)
    (xs : list A) :
  Forall P xs -> Forall P (JS.splice1 idx xs).
Proof.
  rewrite !Forall_forall. intros H x Hin. apply H.
  now apply splice1_In in Hin.
Qed.

Lemma settle_unrejected (wid : Z) (dfs : list (DataFrame DataType))
    (ps : Promises) :
  Forall unrejected ps -> Forall unrejected (settle wid (JS.Resolved dfs) ps).
Proof.
  intros H. unfold settle. rewrite Forall_map.
  eapply Forall_impl; [|exact H].
  intros [w [r|]] Hp; cbn [fst snd]; [exact Hp|].
  destruct (Z.eqb w wid); [|exact Hp]. intros e. discriminate.
Qed.

Lemma fresh_unrejected (pending : list Z) :
  Forall unrejected (map (fun w => (w, None)) pending).
Proof.
  rewrite Forall_map. apply Forall_forall. intros a Hin e. discriminate.
Qed.

Lemma loop_healthy (n : nat) : forall ps : Promises,
  length ps <= n -> Forall unrejected ps -> healthy (fst (loop ps)).
Proof.
  induction n as [|n IH]; intros ps Hlen Hps.
  - destruct ps; [exact I|simpl in Hlen; lia].
  - rewrite loop_eq. destruct ps as [|p ps]; [exact I|].
    destruct (first_settled (p :: ps)) as [[idx o]|] eqn:E.
    + destruct (first_settled_Some _ _ _ E) as [[w Hw] _].
      destruct o as [[|df rest]|e].
      * apply IH; [|now apply splice1_Forall_keep].
        rewrite splice1_length by (now apply first_settled_lt in E).
        simpl in *. lia.
      * cbn [fst]. now apply splice1_Forall_keep.
      * exfalso. apply nth_error_In in Hw. rewrite Forall_forall in Hps.
        exact (Hps _ Hw e eq_refl).
    + cbn [fst]. discriminate.
Qed.

Lemma gen_step_healthy (st : GenState DataType) (ev : Event DataType) :
  success ev -> healthy st -> healthy (fst (gen_step st ev)).
Proof.
  intros Hev Hst. destruct st as [pending|buffer ps| |e0];
    destruct ev as [|wid [dfs|e]];
    try (exfalso; exact (Hev wid e eq_refl)); try exact Hst.
  - cbn [gen_step]. destruct (existsb (Z.eqb wid) pending); [|exact Hst].
    apply (loop_healthy _ _ (le_n _)).
    apply settle_unrejected, fresh_unrejected.
  - destruct buffer as [|df rest]; [|exact Hst].
    now apply (loop_healthy _ _ (le_n _)).
  - assert (Hstep : gen_step (GYielding buffer ps)
                      (Settle wid (JS.Resolved dfs))
                    = (GYielding buffer (settle wid (JS.Resolved dfs) ps), []))
      by now destruct buffer.
    rewrite Hstep. cbn [fst]. now apply settle_unrejected.
Qed.

Lemma gen_run_healthy (evs : list (Event DataType)) :
  forall st : GenState DataType,
    Forall success evs -> healthy st -> healthy (fst (gen_run st evs)).
Proof.
  induction evs as [|ev evs IH]; intros st Hevs Hst; [exact Hst|].
  inversion Hevs as [|? ? Hev Hevs']; subst.
  rewrite gen_run_cons. cbn [fst]. apply IH; [exact Hevs'|].
  now apply gen_step_healthy.
Qed.

Lemma is_pending_In (a : Z) (ps : Promises) :
  is_pending a ps = true <-> In (a, None) ps.
Proof.
  unfold is_pending. rewrite existsb_exists. split.
  - intros ([w [r|]] & Hin & H); simpl in H.
    + now rewrite andb_false_r in H.
    + rewrite andb_true_r in H. apply Z.eqb_eq in H. now subst w.
  - intros Hin. exists (a, None). split; [exact Hin|].
    simpl. now rewrite Z.eqb_refl.
Qed.

Lemma is_pending_splice1 (a : Z) (idx : nat) (ps : Promises) :
  is_pending a (JS.splice1 idx ps) = true -> is_pending a ps = true.
Proof.
  rewrite !is_pending_In. apply splice1_In.
Qed.

Lemma is_pending_settle (a wid : Z)
    (o : JS.Settled (list (DataFrame DataType))) (ps : Promises) :
  is_pending a (settle wid o ps) = true ->
  is_pending a ps = true /\ a <> wid.
Proof.
  rewrite !is_pending_In. unfold settle. rewrite in_map_iff.
  intros ([w [r|]] & Heq & Hin); cbn [fst snd] in Heq; [discriminate|].
  destruct (Z.eqb_spec w wid) as [Hw|Hne]; [discriminate|].
  assert (Hwa : w = a) by congruence. rewrite <- Hwa. now split.
Qed.

Lemma loop_awaits (n : nat) : forall (ps : Promises) (a : Z),
  length ps <= n ->
  awaits (fst (loop ps)) a = true -> is_pending a ps = true.
Proof.
  induction n as [|n IH]; intros ps a Hlen H.
  - destruct ps; [discriminate|simpl in Hlen; lia].
  - rewrite loop_eq in H. destruct ps as [|p ps]; [discriminate|].
    destruct (first_settled (p :: ps)) as [[idx o]|] eqn:E.
    + destruct o as [[|df rest]|e]; [| |discriminate].
      * apply (is_pending_splice1 a idx). apply IH; [|exact H].
        rewrite splice1_length by (now apply first_settled_lt in E).
        simpl in *. lia.
      * now apply (is_pending_splice1 a idx).
    + cbn [fst awaits] in H. apply first_settled_None in E.
      apply existsb_exists in H. destruct H as (w & Hin & Heq).
      apply Z.eqb_eq in Heq. subst w. apply in_map_iff in Hin.
      destruct Hin as ([w s] & Hw & Hin). simpl in Hw. subst w.
      rewrite Forall_forall in E. pose proof (E _ Hin) as Hs.
      simpl in Hs. subst s. now apply is_pending_In.
Qed.

(** A worker the generator waits for after an event was waited for before,
    and the event was not its answer. *)
Lemma gen_step_awaits (st : GenState DataType) (ev : Event DataType)
    (a : Z) :
  awaits (fst (gen_step st ev)) a = true ->
  awaits st a = true /\ (forall wid o, ev = Settle wid o -> a <> wid).
Proof.
  intros H. destruct st as [pending|buffer ps| |e0].
  - destruct ev as [|wid o]; cbn [gen_step] in H.
    + split; [exact H|]. intros wid o Heq. discriminate.
    + destruct (existsb (Z.eqb wid) pending) eqn:Hwid.
      * apply (loop_awaits _ _ _ (le_n _)) in H.
        apply is_pending_settle in H. destruct H as [H Hne].
        rewrite is_pending_fresh in H. split; [exact H|].
        intros wid' o' Heq. injection Heq as -> _. exact Hne.
      * split; [exact H|]. intros wid' o' Heq. injection Heq as -> _.
        intros ->. cbn [fst awaits] in H. congruence.
  - destruct ev as [|wid o].
    + split; [|intros wid o Heq; discriminate].
      destruct buffer as [|df rest]; [|exact H].
      cbn [gen_step] in H. now apply (loop_awaits _ _ _ (le_n _)) in H.
    + assert (Hstep : gen_step (GYielding buffer ps) (Settle wid o)
                      = (GYielding buffer (settle wid o ps), []))
        by now destruct buffer.
      rewrite Hstep in H. cbn [fst awaits] in H.
      apply is_pending_settle in H. destruct H as [H Hne].
      split; [exact H|]. intros wid' o' Heq. injection Heq as -> _.
      exact Hne.
  - now destruct ev.
  - now destruct ev.
Qed.

Lemma gen_run_awaits (evs : list (Event DataType)) :
  forall (st : GenState DataType) (a : Z),
    awaits (fst (gen_run st evs)) a = true ->
    awaits st a = true /\ (forall wid o, In (Settle wid o) evs -> a <> wid).
Proof.
  induction evs as [|ev evs IH]; intros st a H.
  - split; [exact H|]. intros wid o [].
  - rewrite gen_run_cons in H. cbn [fst] in H.
    destruct (IH _ _ H) as [H1 Hrest].
    destruct (gen_step_awaits _ _ _ H1) as [H0 Hev].
    split; [exact H0|]. intros wid o [Heq|Hin].
    + now apply (Hev wid o).
    + now apply (Hrest wid o).
Qed.

Lemma healthy_idle (st : GenState DataType) :
  healthy st ->
  (forall a, awaits st a = false) ->
  st = GDone \/
  exists buffer ps,
    st = GYielding buffer ps /\ Forall (fun p => is_resolved p = true) ps.
Proof.
  intros Hst Hidle. destruct st as [pending|buffer ps| |e0].
  - destruct pending as [|a pending]; [now destruct Hst|].
    specialize (Hidle a). cbn [awaits existsb] in Hidle.
    now rewrite Z.eqb_refl in Hidle.
  - right. exists buffer, ps. split; [reflexivity|].
    rewrite Forall_forall in *. intros [w [[dfs|e]|]] Hin.
    + reflexivity.
    + now destruct (Hst _ Hin e).
    + specialize (Hidle w). cbn [awaits] in Hidle.
      apply is_pending_In in Hin. congruence.
  - now left.
  - destruct Hst.
Qed.

Lemma arrivals_app (evs1 evs2 : list (Event DataType)) :
  forall st : GenState DataType,
    arrivals st (evs1 ++ evs2)
    = arrivals st evs1 ++ arrivals (fst (gen_run st evs1)) evs2.
Proof.
  induction evs1 as [|ev evs1 IH]; intros st; [reflexivity|].
  rewrite gen_run_cons. cbn [app arrivals fst].
  now rewrite IH, app_assoc.
Qed.

Lemma arrivals_next (k : nat) : forall st : GenState DataType,
  arrivals st (repeat Next k) = [].
Proof.
  induction k as [|k IH]; intros st; [reflexivity|].
  cbn [repeat arrivals app]. apply IH.
Qed.

Lemma arrivals_none (evs : list (Event DataType)) :
  arrivals (GRacing []) evs = [].
Proof.
  induction evs as [|ev evs IH]; [reflexivity|].
  cbn [arrivals]. destruct ev as [|wid [dfs|e]]; exact IH.
Qed.

Lemma loop_all_pending (pending : list Z) :
  pending <> [] ->
  loop (map (fun w => (w, @None (JS.Settled (list (DataFrame DataType)))))
            pending)
  = (GRacing pending, []).
Proof.
  intros Hne. rewrite loop_eq.
  assert (Hnone : first_settled
                    (map (fun w => (w, @None (JS.Settled
                                                (list (DataFrame DataType)))))
                         pending) = None).
  { apply first_settled_None. rewrite Forall_map. now apply Forall_forall. }
  rewrite Hnone. destruct pending as [|a pending]; [now destruct Hne|].
  cbn [map]. rewrite map_map. cbn [fst]. now rewrite map_id.
Qed.

(** A healthy generator whose workers all answer returns once the consumer
    has asked often enough. *)
Lemma gen_completes (st : GenState DataType) (evs : list (Event DataType)) :
  healthy st ->
  Forall success evs ->
  (forall a, awaits st a = true -> exists o, In (Settle a o) evs) ->
  exists k, fst (gen_run st (evs ++ repeat Next k)) = GDone.
Proof.
  intros Hst Hevs Hall.
  pose proof (gen_run_healthy evs st Hevs Hst) as Hfinal.
  assert (Hidle : forall a, awaits (fst (gen_run st evs)) a = false).
  { intros a. apply not_true_is_false. intros Ha.
    destruct (gen_run_awaits _ _ _ Ha) as [Ha0 Hne].
    destruct (Hall a Ha0) as [o Hin]. now apply (Hne a o). }
  destruct (healthy_idle _ Hfinal Hidle) as [Hdone|(buffer & ps & Heq & Hres)].
  - exists 0. now rewrite app_nil_r.
  - exists (S (length (buffer ++ flat_map resolved_batches ps))).
    rewrite gen_run_app. cbn [fst]. rewrite Heq.
    now rewrite (drain_all_resolved DataType (length ps) ps buffer (le_n _) Hres).
Qed.


End Completion.


(** ** Answers are yielded whole *)

Section WholeAnswers.

Variable DataType : Type.

Local Abbreviation Promises :=
  (list (Z * JS.Promise (list (DataFrame DataType)))).

(** The array a fulfilled promise holds, the arrays of the promises the
    generator holds, and the rest of the array it is yielding from. *)
Local Abbreviation block :=
  (fun p : Z * JS.Promise (list (DataFrame DataType)) =>
     match snd p with
     | Some (JS.Resolved dfs) => [dfs]
     | _ => []
     end).

Local Abbreviation held_blocks st :=
  (match st with
   | GYielding _ promises => flat_map block promises
   | _ => []
   end).

Local Abbreviation buffer_of st :=
  (match st with
   | GYielding buffer _ => buffer
   | _ => @nil (DataFrame DataType)
   end).

Lemma settle_blocks (wid : Z) (o : JS.Settled (list (DataFrame DataType))) :
  forall ps : Promises,
    NoDup (map fst ps) ->
    Permutation
      (flat_map block (settle wid o ps))
      (flat_map block ps ++
       match o with
       | JS.Resolved dfs => if is_pending wid ps then [dfs] else []
       | JS.Rejected _ => []
       end).
Proof.
  induction ps as [|[w s] ps IH]; intros Hnd.
  - simpl. destruct o; reflexivity.
  - inversion Hnd as [|? ? Hnotin Hnd']; subst. specialize (IH Hnd').
    change (settle wid o ((w, s) :: ps))
      with ((match s with
             | None => if Z.eqb w wid then (w, Some o) else (w, s)
             | Some _ => (w, s)
             end) :: settle wid o ps).
    change (is_pending wid ((w, s) :: ps))
      with (Z.eqb w wid && match s with None => true | Some _ => false end
            || is_pending wid ps).
    destruct s as [r|].
    + rewrite andb_false_r. cbn [orb flat_map].
      rewrite IH. now rewrite app_assoc.
    + rewrite andb_true_r. destruct (Z.eqb_spec w wid) as [->|Hne].
      * cbn [orb flat_map]. rewrite settle_not_pending
          by now apply is_pending_not_in.
        cbn [snd app]. destruct o as [dfs|e].
        -- apply (Permutation_app_comm [dfs]).
        -- now rewrite app_nil_r.
      * cbn [orb flat_map]. rewrite IH. now rewrite app_assoc.
Qed.

Lemma all_pending_no_blocks (ps : Promises) :
  Forall (fun p => snd p = None) ps -> flat_map block ps = [].
Proof.
  induction 1 as [|[w s] ps Hs _ IH]; [reflexivity|].
  simpl in Hs. subst s. exact IH.
Qed.

(** A turn of the loop that does not throw picks whole arrays. *)
Lemma loop_blocks (n : nat) : forall ps : Promises,
  length ps <= n ->
  (forall e, fst (loop ps) <> GFailed e) ->
  exists picked,
    yielded (snd (loop ps)) ++ buffer_of (fst (loop ps)) = concat picked /\
    Permutation (picked ++ held_blocks (fst (loop ps))) (flat_map block ps).
Proof.
  induction n as [|n IH]; intros ps Hlen Hok.
  - destruct ps; [|simpl in Hlen; lia]. exists []. now split.
  - rewrite loop_eq in *. destruct ps as [|p ps]; [exists []; now split|].
    destruct (first_settled (p :: ps)) as [[idx o]|] eqn:E.
    + destruct (first_settled_Some _ _ _ E) as [[w Hw] _].
      pose proof (flat_map_splice1 block idx _ _ Hw) as Hperm.
      cbn [snd] in Hperm.
      destruct o as [[|df rest]|e].
      * destruct (IH (JS.splice1 idx (p :: ps))) as (picked & Hcat & Hkept);
          [|exact Hok|].
        { rewrite splice1_length by (now apply first_settled_lt in E).
          simpl in *. lia. }
        exists ([] :: picked). split; [exact Hcat|].
        rewrite Hperm. cbn [app]. now apply perm_skip.
      * exists [df :: rest]. split; [cbn; now rewrite app_nil_r|].
        rewrite Hperm. reflexivity.
      * exfalso. now apply (Hok e).
    + exists []. split; [reflexivity|].
      apply first_settled_None in E.
      rewrite all_pending_no_blocks by exact E. reflexivity.
Qed.

Lemma gen_step_blocks (st : GenState DataType) (ev : Event DataType) :
  NoDup (gen_ids st) ->
  (forall e, fst (gen_step st ev) <> GFailed e) ->
  exists picked,
    yielded (snd (gen_step st ev)) ++ buffer_of (fst (gen_step st ev))
    = buffer_of st ++ concat picked /\
    Permutation (picked ++ held_blocks (fst (gen_step st ev)))
                (held_blocks st ++ answers st [ev]).
Proof.
  intros Hnd Hok. cbn [answers]. rewrite app_nil_r.
  destruct st as [pending|buffer ps| |e0].
  - destruct ev as [|wid o]; cbn [gen_step awaits] in *.
    + exists []. now split.
    + destruct (existsb (Z.eqb wid) pending) eqn:Hawait.
      * set (fresh := map (fun w => (w, None)) pending) in *.
        assert (Hfresh : map fst fresh = pending).
        { subst fresh. rewrite map_map. apply map_id. }
        assert (Hnd0 : NoDup (map fst fresh)) by (rewrite Hfresh; exact Hnd).
        destruct (loop_blocks (length (settle wid o fresh))
                    (settle wid o fresh) (le_n _) Hok)
          as (picked & Hcat & Hkept).
        exists picked. split; [exact Hcat|]. rewrite Hkept.
        rewrite settle_blocks by exact Hnd0.
        subst fresh. rewrite is_pending_fresh, Hawait.
        rewrite all_pending_no_blocks.
        -- now destruct o.
        -- apply Forall_forall. intros p Hin. apply in_map_iff in Hin.
           now destruct Hin as (w & <- & _).
      * exists []. split; [reflexivity|]. now destruct o.
  - destruct ev as [|wid o].
    + destruct buffer as [|df rest]; cbn [gen_step] in *.
      * destruct (loop_blocks (length ps) ps (le_n _) Hok)
          as (picked & Hcat & Hkept).
        exists picked. split; [exact Hcat|]. now rewrite app_nil_r.
      * exists []. split; [cbn; now rewrite app_nil_r|].
        cbn. now rewrite app_nil_r.
    + assert (Hstep : gen_step (GYielding buffer ps) (Settle wid o)
                      = (GYielding buffer (settle wid o ps), []))
        by now destruct buffer.
      rewrite Hstep. exists []. cbn [fst snd yielded flat_map app awaits].
      split; [now rewrite app_nil_r|].
      rewrite settle_blocks by exact Hnd.
      apply Permutation_app_head. now destruct o.
  - exists []. destruct ev as [|wid [dfs|e]]; now split.
  - exfalso. apply (Hok e0). now destruct ev.
Qed.

Lemma gen_run_blocks (evs : list (Event DataType)) :
  forall st : GenState DataType,
    NoDup (gen_ids st) ->
    (forall e, fst (gen_run st evs) <> GFailed e) ->
    exists picked,
      yielded (snd (gen_run st evs)) ++ buffer_of (fst (gen_run st evs))
      = buffer_of st ++ concat picked /\
      Permutation (picked ++ held_blocks (fst (gen_run st evs)))
                  (held_blocks st ++ answers st evs).
Proof.
  induction evs as [|ev evs IH]; intros st Hnd Hok.
  - exists []. cbn. now rewrite !app_nil_r.
  - rewrite gen_run_cons in *. cbn [fst snd] in *.
    assert (Hstep : forall e, fst (gen_step st ev) <> GFailed e).
    { intros e He. rewrite He, gen_run_failed in Hok. now apply (Hok e). }
    destruct (gen_step_conserves DataType st ev Hnd Hstep) as [Hnd' _].
    destruct (gen_step_blocks st ev Hnd Hstep) as (picked1 & Hcat1 & Hkept1).
    destruct (IH _ Hnd' Hok) as (picked2 & Hcat2 & Hkept2).
    exists (picked1 ++ picked2). split.
    + rewrite yielded_app, <- app_assoc, Hcat2, app_assoc, Hcat1.
      now rewrite concat_app, app_assoc.
    + rewrite <- app_assoc, Hkept2, app_assoc, Hkept1.
      cbn [answers]. rewrite !app_nil_r, <- !app_assoc. reflexivity.
Qed.


End WholeAnswers.

